(** * sort-css-media-queries: the comparator of [index.js], embedded and verified

    The module exports two comparators over media-query strings,
    [sortCSSmq] (mobile-first) and [sortCSSmq.desktopFirst].  Both are built
    from three ingredients, all modelled below:

    - regular expressions evaluated with [RegExp.prototype.test] and
      [RegExp.prototype.exec] (a backtracking matcher over code units);
    - [parseFloat] and multiplication on IEEE-754 binary64 numbers (the
      axiom-free [SpecFloat] model of the Standard Library, [prec = 53],
      [emax = 1024]);
    - [String.prototype.localeCompare], which depends on the host's collation
      and is therefore a parameter of the comparators. *)

From Stdlib Require Import String Ascii.
From Stdlib Require Import List Bool ZArith NArith Lia.
From Stdlib Require Import Floats.SpecFloat.
Import ListNotations.

Set Implicit Arguments.
Local Open Scope string_scope.
Local Open Scope list_scope.
Local Open Scope Z_scope.

(** ** Strings

    A JavaScript string is a sequence of UTF-16 code units. *)

Module JsString.

Definition code_unit := N.
Definition jsstring := list code_unit.

(** Literals: an ASCII literal denotes the list of its character codes. *)
Fixpoint js (s : string) : jsstring :=
  match s with
  | EmptyString => []
  | String c t => N_of_ascii c :: js t
  end.

Fixpoint eqb (a b : jsstring) : bool :=
  match a, b with
  | [], [] => true
  | x :: a', y :: b' => N.eqb x y && eqb a' b'
  | _, _ => false
  end.

(** A sample collation, used to run the comparators on concrete inputs:
    lexicographic order on code units, answering -1, 0 or 1. *)
Fixpoint codeUnitCompare (a b : jsstring) : Z :=
  match a, b with
  | [], [] => 0
  | [], _ :: _ => -1
  | _ :: _, [] => 1
  | x :: a', y :: b' =>
      match N.compare x y with
      | Lt => -1
      | Gt => 1
      | Eq => codeUnitCompare a' b'
      end
  end.

End JsString.
Import JsString.

(** ** Regular expressions

    The fragment of the RegExp syntax used by [index.js]: literal code
    units, the classes [.], [\s] and [\d], sequence, alternation, a greedy
    optional group, and greedy [*] / [+] over a single class.  No pattern
    of the file carries a flag, so matching is by code unit and case
    sensitive. *)

Module Regex.

Inductive cclass :=
| CChar (c : code_unit)
| CDot
| CSpace
| CDigit.

(** [.] excludes the four line terminators. *)
Definition isLineTerminator (c : code_unit) : bool :=
  (N.eqb c 10 || N.eqb c 13 || N.eqb c 8232 || N.eqb c 8233)%bool.

(** [\s]: WhiteSpace and LineTerminator code units. *)
Definition isSpace (c : code_unit) : bool :=
  ((N.leb 9 c && N.leb c 13) || N.eqb c 32 || N.eqb c 160 || N.eqb c 5760
   || (N.leb 8192 c && N.leb c 8202) || N.eqb c 8232 || N.eqb c 8233
   || N.eqb c 8239 || N.eqb c 8287 || N.eqb c 12288 || N.eqb c 65279)%bool.

Definition isDigit (c : code_unit) : bool := (N.leb 48 c && N.leb c 57)%bool.

Definition cmatch (cl : cclass) (c : code_unit) : bool :=
  match cl with
  | CChar d => N.eqb c d
  | CDot => negb (isLineTerminator c)
  | CSpace => isSpace c
  | CDigit => isDigit c
  end.

Inductive regex :=
| Eps
| Cls (cl : cclass)
| Seq (r1 r2 : regex)
| Alt (r1 r2 : regex)
| Opt (r : regex)
| Star (cl : cclass)
| Plus (cl : cclass).

Fixpoint lit (s : string) : regex :=
  match s with
  | EmptyString => Eps
  | String c t => Seq (Cls (CChar (N_of_ascii c))) (lit t)
  end.

(** *** The backtracking matcher

    [rmatch r s k] matches [r] at the head of [s] and hands the rest of
    the input to the continuation [k]; when [k] fails the matcher
    backtracks into [r], trying the alternatives in the order of the
    ECMAScript semantics: left alternative first, greedy quantifiers
    longest first. *)

Section Matcher.
Variable A : Type.

Fixpoint star_k (p : code_unit -> bool) (s : jsstring)
         (k : jsstring -> option A) : option A :=
  match s with
  | c :: s' =>
      if p c then
        match star_k p s' k with
        | Some x => Some x
        | None => k s
        end
      else k s
  | [] => k s
  end.

Fixpoint rmatch (r : regex) (s : jsstring)
         (k : jsstring -> option A) : option A :=
  match r with
  | Eps => k s
  | Cls cl =>
      match s with
      | c :: s' => if cmatch cl c then k s' else None
      | [] => None
      end
  | Seq r1 r2 => rmatch r1 s (fun s' => rmatch r2 s' k)
  | Alt r1 r2 =>
      match rmatch r1 s k with
      | Some x => Some x
      | None => rmatch r2 s k
      end
  | Opt r1 =>
      match rmatch r1 s k with
      | Some x => Some x
      | None => k s
      end
  | Star cl => star_k (cmatch cl) s k
  | Plus cl =>
      match s with
      | c :: s' => if cmatch cl c then star_k (cmatch cl) s' k else None
      | [] => None
      end
  end.

(** A pattern without the sticky flag is tried at every start index,
    from index 0 to the end of the input. *)
Fixpoint search (f : jsstring -> option A) (s : jsstring) : option A :=
  match f s with
  | Some x => Some x
  | None =>
      match s with
      | [] => None
      | _ :: s' => search f s'
      end
  end.
End Matcher.

(** [re.test(s)] *)
Definition test (r : regex) (s : jsstring) : bool :=
  match search (fun t => rmatch r t (fun _ => Some tt)) s with
  | Some _ => true
  | None => false
  end.

(** The text consumed between two successive positions of the input. *)
Definition consumed (before after : jsstring) : jsstring :=
  firstn (length before - length after)%nat before.

(** An attempt of [/(g1)(g2)/] at the head of [t]: the texts captured by
    the two groups. *)
Definition here2 (g1 g2 : regex) (t : jsstring) : option (jsstring * jsstring) :=
  rmatch g1 t (fun t1 =>
  rmatch g2 t1 (fun t2 =>
  Some (consumed t t1, consumed t1 t2))).

(** [/(g1)(g2)/.exec(s)]: [None] for [null], otherwise the texts
    captured by the two groups (elements 1 and 2 of the result array). *)
Definition exec2 (g1 g2 : regex) (s : jsstring) : option (jsstring * jsstring) :=
  search (here2 g1 g2) s.

(** *** The language of a pattern *)

Inductive lang : regex -> jsstring -> Prop :=
| L_eps : lang Eps []
| L_cls cl c : cmatch cl c = true -> lang (Cls cl) [c]
| L_seq r1 r2 u v : lang r1 u -> lang r2 v -> lang (Seq r1 r2) (u ++ v)
| L_alt_l r1 r2 u : lang r1 u -> lang (Alt r1 r2) u
| L_alt_r r1 r2 u : lang r2 u -> lang (Alt r1 r2) u
| L_opt_none r : lang (Opt r) []
| L_opt_some r u : lang r u -> lang (Opt r) u
| L_star cl u : forallb (cmatch cl) u = true -> lang (Star cl) u
| L_plus cl c u :
    cmatch cl c = true -> forallb (cmatch cl) u = true -> lang (Plus cl) (c :: u).

End Regex.
Import Regex.

(** ** Numbers

    JavaScript numbers are IEEE-754 binary64 values. *)

Module Number.

Definition prec : Z := 53.
Definition emax : Z := 1024.

Definition number := spec_float.

(** [Number.MAX_VALUE], (2^53 - 1) * 2^971. *)
Definition MAX_VALUE : number := SFmax_float prec emax.

Definition NaN : number := S754_nan.

(** [x * y], [x === y], [x > y] and [x < y] on numbers; [x > y] is read
    as [y < x]. *)
Definition mul (x y : number) : number := SFmul prec emax x y.
Definition strict_eq (x y : number) : bool := SFeqb x y.
Definition gt (x y : number) : bool := SFltb y x.
Definition lt (x y : number) : bool := SFltb x y.

(** The number nearest to [m * 2^e] (here always exact). *)
Definition dyadic (m e : Z) : number := binary_normalize prec emax m e false.

(** The number nearest to [(-1)^neg * m / 10^k], ties to even: the
    decimal-to-binary conversion of a correctly rounding engine. *)
Definition of_decimal (neg : bool) (m : N) (k : nat) : number :=
  match m with
  | N0 => S754_zero neg
  | Npos p =>
      SFdiv prec emax (S754_finite neg p 0)
            (S754_finite false (Z.to_pos (10 ^ Z.of_nat k)) 0)
  end.

Fixpoint span (p : code_unit -> bool) (s : jsstring) : jsstring * jsstring :=
  match s with
  | c :: t =>
      if p c then let '(u, v) := span p t in (c :: u, v) else ([], s)
  | [] => ([], [])
  end.

Definition digits_val (ds : jsstring) : N :=
  fold_left (fun acc c => 10 * acc + (c - 48))%N ds 0%N.

(** The digits and the optional fraction after the sign. *)
Definition parseUnsigned (neg : bool) (s1 : jsstring) : number :=
  let '(ip, s2) := span isDigit s1 in
  let fp :=
    match s2 with
    | c :: t => if N.eqb c 46 then fst (span isDigit t) else []
    | [] => []
    end in
  match ip ++ fp with
  | [] => NaN
  | ds => of_decimal neg (digits_val ds) (List.length fp)
  end.

(** [parseFloat] on a sign, decimal digits and an optional fraction: the
    longest such prefix is read, and the answer is [NaN] when it holds no
    digit.  Leading white space, exponents and [Infinity] are left out:
    the only call site passes the text captured by [(-?\d*\.?\d+)], whose
    code units are [-], [.] and digits. *)
Definition parseFloat (s : jsstring) : number :=
  match s with
  | c :: t =>
      if N.eqb c 45 then parseUnsigned true t
      else if N.eqb c 43 then parseUnsigned false t
      else parseUnsigned false s
  | [] => NaN
  end.

End Number.
Import Number.

(** ** The patterns of [index.js] *)

Definition re_seq (l : list regex) : regex := fold_right Seq Eps l.

Definition bang_opt : regex := Opt (lit "!").
Definition lparen_ws : regex := Seq (lit "(") (Star CSpace).
Definition device_opt : regex := Opt (lit "-device").

(** [/(!?\(\s*min(-device-)?-width).+\(\s*max(-device)?-width/]; the
    optional group after [min] reads [-device-] in the source. *)
Definition minMaxWidth : regex :=
  re_seq [bang_opt; lparen_ws; lit "min"; Opt (lit "-device-"); lit "-width";
          Plus CDot; lparen_ws; lit "max"; device_opt; lit "-width"].

(** [/\(\s*min(-device)?-width/] *)
Definition minWidth : regex :=
  re_seq [lparen_ws; lit "min"; device_opt; lit "-width"].

(** [/(!?\(\s*max(-device)?-width).+\(\s*min(-device)?-width/] *)
Definition maxMinWidth : regex :=
  re_seq [bang_opt; lparen_ws; lit "max"; device_opt; lit "-width";
          Plus CDot; lparen_ws; lit "min"; device_opt; lit "-width"].

(** [/\(\s*max(-device)?-width/] *)
Definition maxWidth : regex :=
  re_seq [lparen_ws; lit "max"; device_opt; lit "-width"].

(** [/(!?\(\s*min(-device)?-height).+\(\s*max(-device)?-height/] *)
Definition minMaxHeight : regex :=
  re_seq [bang_opt; lparen_ws; lit "min"; device_opt; lit "-height";
          Plus CDot; lparen_ws; lit "max"; device_opt; lit "-height"].

(** [/\(\s*min(-device)?-height/] *)
Definition minHeight : regex :=
  re_seq [lparen_ws; lit "min"; device_opt; lit "-height"].

(** [/(!?\(\s*max(-device)?-height).+\(\s*min(-device)?-height/] *)
Definition maxMinHeight : regex :=
  re_seq [bang_opt; lparen_ws; lit "max"; device_opt; lit "-height";
          Plus CDot; lparen_ws; lit "min"; device_opt; lit "-height"].

(** [/\(\s*max(-device)?-height/] *)
Definition maxHeight : regex :=
  re_seq [lparen_ws; lit "max"; device_opt; lit "-height"].

(** [testQuery (doubleTestTrue, doubleTestFalse, singleTest)] *)
Definition testQuery (doubleTestTrue doubleTestFalse singleTest : regex)
  : jsstring -> bool :=
  fun query =>
    if test doubleTestTrue query then true
    else if test doubleTestFalse query then false
    else test singleTest query.

Definition isMinWidth := testQuery minMaxWidth maxMinWidth minWidth.
Definition isMaxWidth := testQuery maxMinWidth minMaxWidth maxWidth.
Definition isMinHeight := testQuery minMaxHeight maxMinHeight minHeight.
Definition isMaxHeight := testQuery maxMinHeight minMaxHeight maxHeight.


Definition maxValue : number := MAX_VALUE.

(** The two capture groups of [/(-?\d*\.?\d+)(ch|em|ex|px|rem)/]. *)
Definition lengthNum : regex :=
  re_seq [Opt (lit "-"); Star CDigit; Opt (lit "."); Plus CDigit].

Definition lengthUnit : regex :=
  Alt (lit "ch") (Alt (lit "em") (Alt (lit "ex") (Alt (lit "px") (lit "rem")))).

(** The multipliers of the [switch]: 8.8984375 = 1139 / 2^7, 16 and
    8.296875 = 531 / 2^6. *)
Definition factor_ch : number := dyadic 1139 (-7).
Definition factor_em : number := dyadic 16 0.
Definition factor_ex : number := dyadic 531 (-6).

(** [getQueryLength (length)].  The [switch] has no [default]: on a unit
    outside the five cases [num] would stay the captured text.  That branch
    cannot be reached ([getQueryLength_switch_total] below) and is marked
    with [NaN] here. *)
Definition getQueryLength (length : jsstring) : number :=
  match exec2 lengthNum lengthUnit length with
  | None => maxValue
  | Some (num, unit) =>
      if JsString.eqb unit (js "ch") then mul (parseFloat num) factor_ch
      else if JsString.eqb unit (js "em") || JsString.eqb unit (js "rem")
      then mul (parseFloat num) factor_em
      else if JsString.eqb unit (js "ex") then mul (parseFloat num) factor_ex
      else if JsString.eqb unit (js "px") then parseFloat num
      else NaN
  end.

(** ** The comparators

    The result is the JavaScript number returned, an integer; [-0] and [0]
    are not told apart. *)

Section Comparators.

(** [a.localeCompare(b)] *)
Variable localeCompare : jsstring -> jsstring -> Z.

Definition sortCSSmq (a b : jsstring) : Z :=
  let minA := isMinWidth a || isMinHeight a in
  let maxA := isMaxWidth a || isMaxHeight a in
  let minB := isMinWidth b || isMinHeight b in
  let maxB := isMaxWidth b || isMaxHeight b in
  if minA && maxB then -1
  else if maxA && minB then 1
  else
    let lengthA := getQueryLength a in
    let lengthB := getQueryLength b in
    if strict_eq lengthA maxValue && strict_eq lengthB maxValue
    then localeCompare a b
    else if strict_eq lengthA maxValue then 1
    else if strict_eq lengthB maxValue then -1
    else if gt lengthA lengthB then (if maxA then -1 else 1)
    else if lt lengthA lengthB then (if maxA then 1 else -1)
    else localeCompare a b.

Definition desktopFirst (a b : jsstring) : Z :=
  let minA := isMinWidth a || isMinHeight a in
  let maxA := isMaxWidth a || isMaxHeight a in
  let minB := isMinWidth b || isMinHeight b in
  let maxB := isMaxWidth b || isMaxHeight b in
  if minA && maxB then 1
  else if maxA && minB then -1
  else
    let lengthA := getQueryLength a in
    let lengthB := getQueryLength b in
    if strict_eq lengthA maxValue && strict_eq lengthB maxValue
    then localeCompare a b
    else if strict_eq lengthA maxValue then 1
    else if strict_eq lengthB maxValue then -1
    else if gt lengthA lengthB then (if maxA then -1 else 1)
    else if lt lengthA lengthB then (if maxA then 1 else -1)
    else - (localeCompare a b).

End Comparators.

(** ** Notions used in the statements *)

(** The classification the comparators compute for each argument
    ([minA], [maxA], [minB], [maxB] in the source). *)
Definition hasMin (q : jsstring) : bool := isMinWidth q || isMinHeight q.
Definition hasMax (q : jsstring) : bool := isMaxWidth q || isMaxHeight q.

(** One of the two priority checks fires. *)
Definition priority (a b : jsstring) : bool :=
  (hasMin a && hasMax b) || (hasMax a && hasMin b).

(** The extracted length is the sentinel. *)
Definition unmeasurable (q : jsstring) : bool :=
  strict_eq (getQueryLength q) maxValue.

(** The comparison ends in one of the two [localeCompare] branches. *)
Definition tie_break_branch (a b : jsstring) : bool :=
  negb (priority a b) &&
  ((unmeasurable a && unmeasurable b) ||
   (negb (unmeasurable a) && negb (unmeasurable b) &&
    negb (gt (getQueryLength a) (getQueryLength b)) &&
    negb (lt (getQueryLength a) (getQueryLength b)))).

(** Membership in the language of a pattern is decided by running the
    matcher against the whole input. *)
Definition matchesb (r : regex) (u : jsstring) : bool :=
  match rmatch r u (fun v => match v with [] => Some tt | _ :: _ => None end) with
  | Some _ => true
  | None => false
  end.

(** ** Occurrences of a length in a query

    [length_at s pre num unit post]: after the prefix [pre], the string [s]
    holds the number [num] immediately followed by the unit [unit]. *)

Definition length_at (s pre num unit post : jsstring) : Prop :=
  s = pre ++ num ++ unit ++ post /\ lang lengthNum num /\ lang lengthUnit unit.

(** The occurrence after [pre] is the first one of [s]. *)
Definition first_length_at (s pre num unit post : jsstring) : Prop :=
  length_at s pre num unit post /\
  forall pre' num' unit' post',
    length_at s pre' num' unit' post' ->
    (List.length pre <= List.length pre')%nat.

(** The code units a number is made of. *)
Definition numch (c : code_unit) : bool :=
  (isDigit c || N.eqb c 45 || N.eqb c 46)%bool.

(** A computable check that no pair starts before index [n]. *)
Definition none_before (s : jsstring) (n : nat) : bool :=
  forallb (fun j => match here2 lengthNum lengthUnit (skipn j s) with
                    | None => true
                    | Some _ => false
                    end) (seq 0 n).

(** The conversion table of the documentation: the pixel value of [x]
    units, 16 per [em] and [rem], 8.296875 per [ex], 8.8984375 per [ch]; a
    length in [px] is its own pixel value. *)
Definition in_pixels (unit : jsstring) (x : number) : number :=
  if JsString.eqb unit (js "px") then x
  else if JsString.eqb unit (js "em") || JsString.eqb unit (js "rem")
  then mul x (dyadic 16 0)
  else if JsString.eqb unit (js "ex") then mul x (dyadic 531 (-6))
  else mul x (dyadic 1139 (-7)).

(** [p] is a prefix of [s]. *)
Fixpoint prefixb (p s : jsstring) : bool :=
  match p, s with
  | [], _ => true
  | x :: p', y :: s' => N.eqb x y && prefixb p' s'
  | _ :: _, [] => false
  end.

(** Replacing every occurrence of [old] by [new], left to right; [skip]
    counts the code units of a replaced occurrence still to be dropped. *)
Fixpoint replace_from (old new : jsstring) (skip : nat) (s : jsstring) : jsstring :=
  match s with
  | [] => []
  | c :: t =>
      match skip with
      | S k => replace_from old new k t
      | O =>
          if prefixb old s
          then new ++ replace_from old new (List.length old - 1) t
          else c :: replace_from old new 0 t
      end
  end.

Definition replaceAll (old new : string) (s : jsstring) : jsstring :=
  replace_from (js old) (js new) 0 s.

(** Each device-prefixed feature name replaced by its non-device
    counterpart. *)
Definition undevice (q : jsstring) : jsstring :=
  replaceAll "max-device-height" "max-height"
    (replaceAll "min-device-height" "min-height"
       (replaceAll "max-device-width" "max-width"
          (replaceAll "min-device-width" "min-width" q))).

(** The documented examples: the sort result of the README for the
    mobile-first policy, and the desktop-first example. *)
Definition readme_mobile_first : list jsstring :=
  map js
    ["screen and (min-width: 320px) and (max-width: 767px)";
     "screen and (min-height: 480px)";
     "screen and (min-height: 480px) and (min-width: 320px)";
     "screen and (min-width: 640px)";
     "screen and (min-width: 1024px)";
     "screen and (min-width: 1280px)";
     "screen and (min-device-width: 320px) and (max-device-width: 767px)";
     "screen and (max-width: 1023px)";
     "screen and (max-height: 767px) and (min-height: 320px)";
     "screen and (max-width: 767px) and (min-width: 320px)";
     "screen and (max-width: 639px)";
     "print";
     "screen and (orientation: landscape)";
     "screen and (orientation: portrait)";
     "tv"].

Definition example_desktop_first : list jsstring :=
  map js
    ["screen and (max-width: 1023px)";
     "screen and (max-width: 639px)";
     "screen and (min-width: 320px)"].

(** [cmp] puts every element of the list before all the later ones. *)
Fixpoint ordered_by (cmp : jsstring -> jsstring -> Z) (l : list jsstring) : bool :=
  match l with
  | [] => true
  | x :: t =>
      forallb (fun y => Z.eqb (cmp x y) (-1) && Z.eqb (cmp y x) 1) t
      && ordered_by cmp t
  end.

(** The three groups of queries the documentation lists: a minimum
    bound with a length, a maximum bound with a length, and queries
    "without dimension values". *)
Definition min_group (q : jsstring) : bool :=
  hasMin q && negb (hasMax q) && negb (unmeasurable q).
Definition max_group (q : jsstring) : bool :=
  negb (hasMin q) && hasMax q && negb (unmeasurable q).
Definition plain_group (q : jsstring) : bool :=
  negb (hasMin q) && negb (hasMax q) && unmeasurable q.
Definition documented (q : jsstring) : bool :=
  min_group q || max_group q || plain_group q.

(** No opening parenthesis; no decimal digit. *)
Definition noParen (q : jsstring) : bool :=
  forallb (fun c => negb (N.eqb c 40)) q.
Definition noDigit (q : jsstring) : bool :=
  forallb (fun c => negb (isDigit c)) q.

(** A text in front of a length that cannot take part in it: it holds no
    digit and does not end in [-] or [.]. *)
Definition clean_prefix (pre : jsstring) : bool :=
  noDigit pre &&
  match rev pre with
  | z :: _ => negb (numch z)
  | [] => true
  end.

(** What two comparisons in a row say of the third. *)
Definition chained (c1 c2 c3 : comparison) : Prop :=
  match c1, c2 with
  | Eq, _ => c3 = c2
  | _, Eq => c3 = c1
  | Lt, Lt => c3 = Lt
  | Gt, Gt => c3 = Gt
  | _, _ => True
  end.

(** ** The first length of a query, in the words of the specification

    These definitions follow the specification, not the pattern of
    [getQueryLength]: they are what the extracted length is compared
    with. *)

(** The decimal digits, and the fixed unit set. *)
Definition spec_digit (c : code_unit) : Prop := In c (js "0123456789").

Definition spec_units : list jsstring :=
  [js "ch"; js "em"; js "ex"; js "px"; js "rem"].

Definition spec_sign (neg : bool) : jsstring := if neg then js "-" else [].

(** [spec_number num neg ip fp]: the text [num] writes a number with sign
    [neg], integer digits [ip] and fraction digits [fp].  A number is an
    optional [-] followed either by digits alone, or by digits (possibly
    none), a point and at least one digit. *)
Inductive spec_number : jsstring -> bool -> jsstring -> jsstring -> Prop :=
| spec_integer neg ip :
    ip <> [] -> Forall spec_digit ip ->
    spec_number (spec_sign neg ++ ip) neg ip []
| spec_decimal neg ip fp :
    fp <> [] -> Forall spec_digit ip -> Forall spec_digit fp ->
    spec_number (spec_sign neg ++ ip ++ js "." ++ fp) neg ip fp.

(** The natural number written by a run of digits, most significant digit
    first ([48] is the code unit of the digit 0). *)
Fixpoint spec_natural (ds : jsstring) : N :=
  match ds with
  | [] => 0
  | d :: t => (d - 48) * 10 ^ N.of_nat (List.length t) + spec_natural t
  end%N.

(** The numeric value of a number: with [k] fraction digits, the binary64
    number nearest to the natural number written by all its digits divided
    by [10^k], with the sign of the text. *)
Definition spec_value (neg : bool) (ip fp : jsstring) : number :=
  of_decimal neg (spec_natural (ip ++ fp)) (List.length fp).

(** After [pre], the string [s] holds the number [num] immediately
    followed by one of the units. *)
Definition spec_length_at (s pre num unit post : jsstring)
           (neg : bool) (ip fp : jsstring) : Prop :=
  s = pre ++ num ++ unit ++ post /\ spec_number num neg ip fp /\
  In unit spec_units.

(** No number immediately followed by a unit starts earlier in [s]. *)
Definition spec_first_length_at (s pre num unit post : jsstring)
           (neg : bool) (ip fp : jsstring) : Prop :=
  spec_length_at s pre num unit post neg ip fp /\
  forall pre' num' unit' post' neg' ip' fp',
    spec_length_at s pre' num' unit' post' neg' ip' fp' ->
    (List.length pre <= List.length pre')%nat.

(** * Properties of the matcher *)

Section MatcherFacts.
Variable A : Type.
Implicit Types (k : jsstring -> option A) (s u v : jsstring).

Lemma star_k_fallback p s k x :
  k s = Some x -> exists y, star_k p s k = Some y.
Proof.
  intros Hk. destruct s as [|c s']; simpl; [eauto|].
  destruct (p c); [|eauto].
  destruct (star_k p s' k); eauto.
Qed.

Lemma star_k_sound p s k x :
  star_k p s k = Some x ->
  exists u v, s = u ++ v /\ forallb p u = true /\ k v = Some x.
Proof.
  revert x. induction s as [|c s' IH]; simpl; intros x H.
  - exists [], []. auto.
  - destruct (p c) eqn:Hc.
    + destruct (star_k p s' k) as [y|] eqn:Hs.
      * injection H as <-. destruct (IH _ eq_refl) as (u & v & -> & Hu & Hv).
        exists (c :: u), v. simpl. rewrite Hc, Hu. auto.
      * exists [], (c :: s'). auto.
    + exists [], (c :: s'). auto.
Qed.

Lemma star_k_complete p u v k x :
  forallb p u = true -> k v = Some x ->
  exists y, star_k p (u ++ v) k = Some y.
Proof.
  induction u as [|c u IH]; simpl; intros Hu Hk.
  - eapply star_k_fallback; eauto.
  - apply andb_prop in Hu as [Hc Hu]. rewrite Hc.
    destruct (IH Hu Hk) as [y ->]. eauto.
Qed.

Lemma rmatch_sound r : forall s k x,
  rmatch r s k = Some x ->
  exists u v, s = u ++ v /\ lang r u /\ k v = Some x.
Proof.
  induction r as [|cl|r1 IH1 r2 IH2|r1 IH1 r2 IH2|r1 IH1|cl|cl];
    simpl; intros s k x H.
  - exists [], s. repeat split; auto. constructor.
  - destruct s as [|c s']; [discriminate|].
    destruct (cmatch cl c) eqn:Hc; [|discriminate].
    exists [c], s'. repeat split; auto. now constructor.
  - apply IH1 in H as (u1 & v1 & -> & L1 & H).
    apply IH2 in H as (u2 & v2 & -> & L2 & H).
    exists (u1 ++ u2), v2. rewrite <- app_assoc. repeat split; auto.
    now constructor.
  - destruct (rmatch r1 s k) as [y|] eqn:H1.
    + injection H as <-. apply IH1 in H1 as (u & v & -> & L & H).
      exists u, v. repeat split; auto. now apply L_alt_l.
    + apply IH2 in H as (u & v & -> & L & H).
      exists u, v. repeat split; auto. now apply L_alt_r.
  - destruct (rmatch r1 s k) as [y|] eqn:H1.
    + injection H as <-. apply IH1 in H1 as (u & v & -> & L & H).
      exists u, v. repeat split; auto. now apply L_opt_some.
    + exists [], s. repeat split; auto. apply L_opt_none.
  - apply star_k_sound in H as (u & v & -> & Hu & H).
    exists u, v. repeat split; auto. now constructor.
  - destruct s as [|c s']; [discriminate|].
    destruct (cmatch cl c) eqn:Hc; [|discriminate].
    apply star_k_sound in H as (u & v & -> & Hu & H).
    exists (c :: u), v. repeat split; auto. now constructor.
Qed.

Lemma rmatch_complete r u : lang r u -> forall v k x,
  k v = Some x -> exists y, rmatch r (u ++ v) k = Some y.
Proof.
  induction 1 as [|cl c Hc|r1 r2 u1 u2 _ IH1 _ IH2|r1 r2 u _ IH|r1 r2 u _ IH
                 |r|r u _ IH|cl u Hu|cl c u Hc Hu];
    intros v k x Hk; simpl.
  - eauto.
  - rewrite Hc. eauto.
  - rewrite <- app_assoc.
    destruct (IH2 _ _ _ Hk) as [y Hy]. eapply IH1; eauto.
  - destruct (IH _ _ _ Hk) as [y ->]. eauto.
  - destruct (rmatch r1 (u ++ v) k); eauto.
  - destruct (rmatch r v k); eauto.
  - destruct (IH _ _ _ Hk) as [y ->]. eauto.
  - eapply star_k_complete; eauto.
  - rewrite Hc. eapply star_k_complete; eauto.
Qed.

Lemma search_Some (f : jsstring -> option A) s x :
  search f s = Some x ->
  exists pre t, s = pre ++ t /\ f t = Some x /\
    forall p1 p2, pre = p1 ++ p2 -> p2 <> [] -> f (p2 ++ t) = None.
Proof.
  induction s as [|c s IH]; simpl; intros H.
  - destruct (f []) eqn:Hf; [|discriminate]. injection H as ->.
    exists [], []. repeat split; auto.
    intros p1 p2 E N. symmetry in E. apply app_eq_nil in E as [_ ->]. now elim N.
  - destruct (f (c :: s)) eqn:Hf.
    + injection H as ->. exists [], (c :: s). repeat split; auto.
      intros p1 p2 E N. symmetry in E. apply app_eq_nil in E as [_ ->]. now elim N.
    + destruct (IH H) as (pre & t & -> & Ht & Hmin).
      exists (c :: pre), t. repeat split; auto.
      intros p1 p2 E N. destruct p1 as [|d p1]; simpl in E.
      * subst p2. exact Hf.
      * injection E as _ E. eauto.
Qed.

Lemma search_None (f : jsstring -> option A) s :
  search f s = None -> forall pre t, s = pre ++ t -> f t = None.
Proof.
  induction s as [|c s IH]; simpl; intros H pre t E.
  - symmetry in E. apply app_eq_nil in E as [_ ->].
    destruct (f []); [discriminate|reflexivity].
  - destruct (f (c :: s)) eqn:Hf; [discriminate|].
    destruct pre as [|d pre]; simpl in E.
    + now subst t.
    + injection E as _ E. eauto.
Qed.

End MatcherFacts.

(** [re.test(s)] answers whether some substring of [s] is in the language
    of [re]. *)
Lemma test_true_iff r s :
  test r s = true <-> exists pre m post, s = pre ++ m ++ post /\ lang r m.
Proof.
  unfold test. split.
  - destruct (search _ s) as [[]|] eqn:H; [intros _|discriminate].
    apply search_Some in H as (pre & t & -> & H & _).
    apply rmatch_sound in H as (m & post & -> & L & _). eauto.
  - intros (pre & m & post & -> & L).
    destruct (search _ (pre ++ m ++ post)) eqn:H; [reflexivity|].
    eapply search_None in H; [|reflexivity].
    destruct (rmatch_complete L post (fun _ => Some tt) eq_refl) as [y Hy].
    simpl in H. rewrite Hy in H. discriminate.
Qed.

Lemma consumed_app u v : consumed (u ++ v) v = u.
Proof.
  unfold consumed. rewrite length_app.
  replace (List.length u + List.length v - List.length v)%nat
    with (List.length u + 0)%nat by lia.
  rewrite firstn_app_2. simpl. apply app_nil_r.
Qed.

Lemma here2_sound g1 g2 t m1 m2 :
  here2 g1 g2 t = Some (m1, m2) ->
  exists post, t = m1 ++ m2 ++ post /\ lang g1 m1 /\ lang g2 m2.
Proof.
  unfold here2. intros H.
  apply rmatch_sound in H as (u1 & t1 & -> & L1 & H).
  apply rmatch_sound in H as (u2 & t2 & -> & L2 & H).
  rewrite !consumed_app in H. injection H as <- <-. eauto.
Qed.

Lemma here2_complete g1 g2 m1 m2 post :
  lang g1 m1 -> lang g2 m2 ->
  exists y, here2 g1 g2 (m1 ++ m2 ++ post) = Some y.
Proof.
  intros L1 L2. unfold here2.
  destruct (rmatch_complete L2 post
              (fun t2 => Some (consumed (m1 ++ m2 ++ post) (m2 ++ post),
                               consumed (m2 ++ post) t2)) eq_refl) as [y Hy].
  eapply rmatch_complete; [exact L1|]. simpl. exact Hy.
Qed.

Lemma matchesb_iff r u : matchesb r u = true <-> lang r u.
Proof.
  unfold matchesb. split.
  - destruct (rmatch r u _) as [[]|] eqn:H; [intros _|discriminate].
    apply rmatch_sound in H as (m & v & -> & L & H).
    destruct v; [|discriminate]. now rewrite app_nil_r.
  - intros L.
    destruct (rmatch_complete L []
                (fun v => match v with [] => Some tt | _ :: _ => None end) eq_refl)
      as [y Hy].
    rewrite app_nil_r in Hy. now rewrite Hy.
Qed.

Lemma jsstring_eqb_eq a b : JsString.eqb a b = true <-> a = b.
Proof.
  revert b. induction a as [|x a IH]; intros [|y b]; simpl; split;
    try congruence; try discriminate.
  - intros H. apply andb_prop in H as [Hx Hab].
    apply N.eqb_eq in Hx. apply IH in Hab. congruence.
  - intros H. injection H as -> ->. rewrite N.eqb_refl. simpl. now apply IH.
Qed.

Ltac lang_inv :=
  repeat match goal with
    | H : lang (Seq _ _) _ |- _ => inversion H; subst; clear H
    | H : lang (Alt _ _) _ |- _ => inversion H; subst; clear H
    | H : lang (Opt _) _ |- _ => inversion H; subst; clear H
    | H : lang (Cls _) _ |- _ => inversion H; subst; clear H
    | H : lang (Star _) _ |- _ => inversion H; subst; clear H
    | H : lang (Plus _) _ |- _ => inversion H; subst; clear H
    | H : lang Eps _ |- _ => inversion H; subst; clear H
    end.

Lemma forallb_digit_numch u : forallb isDigit u = true -> forallb numch u = true.
Proof.
  induction u as [|c u IH]; simpl; [auto|].
  intros H. apply andb_prop in H as [Hc Hu].
  unfold numch at 1. rewrite Hc. simpl. auto.
Qed.

(** The shape of the text captured by [(-?\d*\.?\d+)]. *)
Lemma lengthNum_shape u :
  lang lengthNum u ->
  exists sign d1 dot c d2,
    u = sign ++ d1 ++ dot ++ c :: d2 /\
    (sign = [] \/ sign = js "-") /\ forallb isDigit d1 = true /\
    (dot = [] \/ dot = js ".") /\ isDigit c = true /\ forallb isDigit d2 = true.
Proof.
  unfold lengthNum, re_seq. simpl. intros L. lang_inv; simpl in *;
    repeat match goal with
      | H : N.eqb _ _ = true |- _ => apply N.eqb_eq in H; subst
      end.
  all: rewrite app_nil_r.
  all: match goal with
       | |- exists _ _ _ _ _, 45%N :: ?u ++ 46%N :: ?c :: ?v = _ /\ _ =>
           exists [45%N], u, [46%N], c, v
       | |- exists _ _ _ _ _, ?u ++ 46%N :: ?c :: ?v = _ /\ _ =>
           exists [], u, [46%N], c, v
       | |- exists _ _ _ _ _, 45%N :: ?u ++ ?c :: ?v = _ /\ _ =>
           exists [45%N], u, [], c, v
       | |- exists _ _ _ _ _, ?u ++ ?c :: ?v = _ /\ _ =>
           exists [], u, [], c, v
       end; simpl; auto 10.
Qed.

Lemma lengthNum_chars u : lang lengthNum u -> forallb numch u = true.
Proof.
  intros L. apply lengthNum_shape in L
    as (sign & d1 & dot & c & d2 & -> & Hs & H1 & Hd & Hc & H2).
  rewrite !forallb_app. simpl.
  rewrite (forallb_digit_numch _ H1), (forallb_digit_numch _ H2).
  unfold numch at 3. rewrite Hc.
  destruct Hs as [-> | ->], Hd as [-> | ->]; reflexivity.
Qed.

(** The text captured by [(ch|em|ex|px|rem)]. *)
Lemma lengthUnit_cases u :
  lang lengthUnit u ->
  u = js "ch" \/ u = js "em" \/ u = js "ex" \/ u = js "px" \/ u = js "rem".
Proof.
  unfold lengthUnit. simpl. intros L. lang_inv; simpl in *;
    repeat match goal with
      | H : N.eqb _ _ = true |- _ => apply N.eqb_eq in H; subst
      end; auto 10.
Qed.

Lemma lengthUnit_head u :
  lang lengthUnit u -> exists c r, u = c :: r /\ numch c = false.
Proof.
  intros L. apply lengthUnit_cases in L as [-> | [-> | [-> | [-> | ->]]]];
    simpl; eauto.
Qed.

Lemma numch_prefix_unique u : forall u' x x',
  forallb numch u = true -> forallb numch u' = true ->
  (exists c r, x = c :: r /\ numch c = false) ->
  (exists c r, x' = c :: r /\ numch c = false) ->
  u ++ x = u' ++ x' -> u = u' /\ x = x'.
Proof.
  induction u as [|a u IH]; intros [|a' u'] x x' Hu Hu' Hx Hx' E; simpl in *.
  - auto.
  - destruct Hx as (c & r & -> & Hc). injection E as -> _.
    apply andb_prop in Hu' as [Ha _]. congruence.
  - destruct Hx' as (c & r & -> & Hc). injection E as -> _.
    apply andb_prop in Hu as [Ha _]. congruence.
  - injection E as -> E.
    apply andb_prop in Hu as [_ Hu]. apply andb_prop in Hu' as [_ Hu'].
    destruct (IH _ _ _ Hu Hu' Hx Hx' E) as [-> ->]. auto.
Qed.

(** At a given start index there is at most one number-and-unit pair. *)
Lemma length_here_unique num unit post num' unit' post' :
  lang lengthNum num -> lang lengthUnit unit ->
  lang lengthNum num' -> lang lengthUnit unit' ->
  num ++ unit ++ post = num' ++ unit' ++ post' ->
  num = num' /\ unit = unit'.
Proof.
  intros Ln Lu Ln' Lu' E.
  destruct (lengthUnit_head Lu) as (c & r & Hu & Hc).
  destruct (lengthUnit_head Lu') as (c' & r' & Hu' & Hc').
  destruct (@numch_prefix_unique num num' (unit ++ post) (unit' ++ post')) as [-> E'];
    auto using lengthNum_chars.
  - subst unit. simpl. eauto.
  - subst unit'. simpl. eauto.
  - split; [reflexivity|]. clear - Lu Lu' E'.
    apply lengthUnit_cases in Lu as [-> | [-> | [-> | [-> | ->]]]];
      apply lengthUnit_cases in Lu' as [-> | [-> | [-> | [-> | ->]]]];
      simpl in E'; congruence.
Qed.

(** [exec] answers [null] exactly when the string holds no number
    immediately followed by a unit. *)
Lemma exec2_None_iff s :
  exec2 lengthNum lengthUnit s = None <->
  forall pre num unit post, ~ length_at s pre num unit post.
Proof.
  unfold exec2. split.
  - intros H pre num unit post (E & Ln & Lu).
    eapply search_None in H; [|exact E].
    destruct (here2_complete post Ln Lu) as [y Hy]. congruence.
  - intros H. destruct (search _ s) as [[m1 m2]|] eqn:Hs; [|reflexivity].
    apply search_Some in Hs as (pre & t & -> & Ht & _).
    apply here2_sound in Ht as (post & -> & L1 & L2).
    elim (H pre m1 m2 post). repeat split; auto.
Qed.

(** What [exec] captures is the number and the unit of a first
    occurrence. *)
Lemma exec2_Some_first s m1 m2 :
  exec2 lengthNum lengthUnit s = Some (m1, m2) ->
  exists pre post, first_length_at s pre m1 m2 post.
Proof.
  unfold exec2. intros Hs.
  apply search_Some in Hs as (pre0 & t & E0 & Ht & Hmin).
  apply here2_sound in Ht as (post0 & -> & L1 & L2).
  exists pre0, post0. split; [repeat split; auto|].
  intros pre' num' unit' post' (E & Ln & Lu).
  destruct (Nat.le_gt_cases (List.length pre0) (List.length pre')) as [|Hlt];
    [assumption|exfalso].
  rewrite E0 in E. apply app_eq_app in E as [l [[-> E1] | [-> E1]]].
  - destruct l as [|c l].
    + rewrite app_nil_r in Hlt. lia.
    + specialize (Hmin pre' (c :: l) eq_refl ltac:(discriminate)).
      rewrite <- E1 in Hmin.
      destruct (here2_complete post' Ln Lu) as [y Hy]. congruence.
  - rewrite length_app in Hlt. lia.
Qed.

Lemma first_length_at_unique s pre num unit post pre' num' unit' post' :
  first_length_at s pre num unit post ->
  first_length_at s pre' num' unit' post' ->
  num = num' /\ unit = unit'.
Proof.
  intros [Hat Hfirst] [Hat' Hfirst'].
  pose proof (Hfirst _ _ _ _ Hat') as H1.
  pose proof (Hfirst' _ _ _ _ Hat) as H2.
  destruct Hat as (E & Ln & Lu), Hat' as (E' & Ln' & Lu').
  rewrite E in E'. apply app_eq_app in E' as [l [[-> E1] | [-> E1]]];
    rewrite length_app in *; (destruct l; [|simpl in *; lia]);
    simpl in E1.
  - symmetry in E1. now apply (length_here_unique _ _ Ln Lu Ln' Lu' E1).
  - now apply (length_here_unique _ _ Ln Lu Ln' Lu' E1).
Qed.

(** [exec] captures the number and the unit of the first occurrence. *)
Lemma exec2_first s pre num unit post :
  first_length_at s pre num unit post ->
  exec2 lengthNum lengthUnit s = Some (num, unit).
Proof.
  intros Hfirst.
  destruct (exec2 lengthNum lengthUnit s) as [[m1 m2]|] eqn:Hs.
  - apply exec2_Some_first in Hs as (pre0 & post0 & H0).
    destruct (first_length_at_unique H0 Hfirst) as [-> ->]. reflexivity.
  - destruct Hfirst as [Hat _].
    rewrite exec2_None_iff in Hs. now elim (Hs _ _ _ _ Hat).
Qed.

Lemma none_before_first s n :
  none_before s n = true ->
  forall pre num unit post,
    length_at s pre num unit post -> (n <= List.length pre)%nat.
Proof.
  unfold none_before. intros H pre num unit post (E & Ln & Lu).
  destruct (Nat.le_gt_cases n (List.length pre)) as [|Hlt]; [assumption|].
  rewrite forallb_forall in H.
  specialize (H (List.length pre)). rewrite in_seq in H.
  assert (Hs : skipn (List.length pre) s = num ++ unit ++ post).
  { rewrite E. rewrite skipn_app, skipn_all, Nat.sub_diag. reflexivity. }
  rewrite Hs in H. destruct (here2_complete post Ln Lu) as [y Hy].
  rewrite Hy in H. discriminate H. lia.
Qed.

(** * Properties of numbers *)

Section NumberFacts.

Lemma SFcompare_antisym x y :
  SFcompare y x = option_map CompOpp (SFcompare x y).
Proof.
  destruct x as [sx|sx| |sx mx ex], y as [sy|sy| |sy my ey];
    simpl; try reflexivity;
    try (destruct sx; reflexivity); try (destruct sy; reflexivity);
    try (destruct sx, sy; reflexivity).
  destruct sx, sy; simpl; try reflexivity;
    rewrite (Z.compare_antisym ex ey); destruct (ex ?= ey); simpl;
    try reflexivity; f_equal;
    rewrite !Pos.compare_cont_antisym; simpl;
    rewrite <- ?Pos.compare_cont_antisym; reflexivity.
Qed.

Lemma gt_lt x y : gt x y = lt y x.
Proof. reflexivity. Qed.

Lemma lt_asym x y : lt x y = true -> lt y x = false.
Proof.
  unfold lt, SFltb. rewrite (SFcompare_antisym x y).
  destruct (SFcompare x y) as [[]|]; simpl; congruence.
Qed.

Lemma strict_eq_sym x y : strict_eq x y = strict_eq y x.
Proof.
  unfold strict_eq, SFeqb. rewrite (SFcompare_antisym x y).
  destruct (SFcompare x y) as [[]|]; reflexivity.
Qed.

Lemma lt_not_eq x y : lt x y = true -> strict_eq x y = false.
Proof.
  unfold lt, strict_eq, SFltb, SFeqb.
  destruct (SFcompare x y) as [[]|]; congruence.
Qed.

Lemma strict_eq_not_lt x y : strict_eq x y = true -> lt x y = false /\ lt y x = false.
Proof.
  unfold lt, strict_eq, SFltb, SFeqb. rewrite (SFcompare_antisym x y).
  destruct (SFcompare x y) as [[]|]; simpl; intros; split; congruence.
Qed.

(** Trichotomy holds away from [NaN]. *)
Lemma lt_total x y :
  x <> NaN -> y <> NaN -> strict_eq x y = false ->
  lt x y = true \/ lt y x = true.
Proof.
  unfold lt, strict_eq, SFltb, SFeqb. rewrite (SFcompare_antisym x y).
  intros Hx Hy.
  assert (H : SFcompare x y <> None).
  { destruct x, y; simpl; try discriminate; unfold NaN in *; congruence. }
  destruct (SFcompare x y) as [[]|]; simpl; intros; auto; congruence.
Qed.

Lemma strict_eq_refl x : x <> NaN -> strict_eq x x = true.
Proof.
  unfold strict_eq, SFeqb. intros Hx.
  destruct x as [s|s| |s m e]; simpl; try reflexivity.
  - destruct s; reflexivity.
  - now elim Hx.
  - destruct s; rewrite Z.compare_refl, Pos.compare_cont_refl; reflexivity.
Qed.

(** Rounding never produces [NaN]. *)

Lemma shr_1_nonneg mrs : 0 <= shr_m mrs -> 0 <= shr_m (shr_1 mrs).
Proof.
  destruct mrs as [m r t]. simpl.
  destruct m as [|[p|p|]|p]; simpl; lia.
Qed.

Lemma iter_shr_1_nonneg p : forall mrs,
  0 <= shr_m mrs -> 0 <= shr_m (iter_pos shr_1 p mrs).
Proof.
  induction p as [p IH|p IH|]; simpl; intros mrs H;
    auto using shr_1_nonneg.
Qed.

Lemma shr_fexp_nonneg m e l :
  0 <= m -> 0 <= shr_m (fst (shr_fexp prec emax m e l)).
Proof.
  intros H. unfold shr_fexp, shr.
  assert (H0 : 0 <= shr_m (shr_record_of_loc m l)).
  { destruct l as [|[]]; simpl; assumption. }
  destruct (fexp prec emax (Zdigits2 m + e) - e); simpl;
    auto using iter_shr_1_nonneg.
Qed.

Lemma round_nearest_even_nonneg m l : 0 <= m -> 0 <= round_nearest_even m l.
Proof.
  intros H. destruct l as [|[]]; simpl; try lia.
  destruct (Z.even m); lia.
Qed.

Lemma binary_round_aux_not_nan sx m e l :
  0 <= m -> binary_round_aux prec emax sx m e l <> NaN.
Proof.
  intros H. unfold binary_round_aux.
  pose proof (shr_fexp_nonneg e l H) as H1.
  destruct (shr_fexp prec emax m e l) as [mrs' e']. simpl in H1.
  pose proof (round_nearest_even_nonneg (loc_of_shr_record mrs') H1) as H2.
  pose proof (shr_fexp_nonneg e' loc_Exact H2) as H3.
  destruct (shr_fexp prec emax _ e' loc_Exact) as [mrs'' e'']. simpl in H3.
  destruct (shr_m mrs'') as [|p|p]; try discriminate.
  - destruct (e'' <=? emax - prec); discriminate.
  - lia.
Qed.

Lemma of_decimal_not_nan neg m k : of_decimal neg m k <> NaN.
Proof.
  unfold of_decimal. destruct m as [|p]; [discriminate|].
  unfold SFdiv, SFdiv_core_binary.
  set (d := Z.to_pos (10 ^ Z.of_nat k)).
  set (e' := Z.min _ _). set (m' := match 0 - 0 - e' with 0 => _ | _ => _ end).
  assert (Hm : 0 <= m').
  { subst m'. destruct (0 - 0 - e'); try lia. apply Z.shiftl_nonneg. lia. }
  pose proof (Z.div_pos m' (Z.pos d) Hm ltac:(lia)) as Hq.
  unfold Z.div in Hq. destruct (Z.div_eucl m' (Z.pos d)) as [q r].
  now apply binary_round_aux_not_nan.
Qed.

Lemma mul_finite_not_nan x s m e :
  x <> NaN -> mul x (S754_finite s m e) <> NaN.
Proof.
  intros Hx. unfold mul. destruct x as [sx|sx| |sx mx ex]; simpl;
    try discriminate.
  - now elim Hx.
  - apply binary_round_aux_not_nan. lia.
Qed.

End NumberFacts.

(** * Properties of [parseFloat] and [getQueryLength] *)

Lemma span_all p u : forall v,
  forallb p u = true ->
  match v with [] => True | c :: _ => p c = false end ->
  span p (u ++ v) = (u, v).
Proof.
  induction u as [|a u IH]; simpl; intros v Hu Hv.
  - destruct v as [|c v]; simpl; [reflexivity|]. now rewrite Hv.
  - apply andb_prop in Hu as [Ha Hu]. rewrite Ha, (IH v Hu Hv). reflexivity.
Qed.

Lemma parseUnsigned_not_nan neg d1 dot c d2 :
  forallb isDigit d1 = true -> dot = [] \/ dot = js "." ->
  isDigit c = true -> forallb isDigit d2 = true ->
  parseUnsigned neg (d1 ++ dot ++ c :: d2) <> NaN.
Proof.
  intros H1 Hd Hc H2. unfold parseUnsigned.
  assert (Hcd : forallb isDigit (c :: d2) = true) by (simpl; now rewrite Hc).
  destruct Hd as [-> | ->]; simpl app.
  - rewrite <- (app_nil_r (d1 ++ c :: d2)).
    rewrite span_all; [|rewrite forallb_app, H1; exact Hcd|exact I].
    rewrite app_nil_r. destruct (d1 ++ c :: d2) eqn:E.
    + now destruct d1.
    + apply of_decimal_not_nan.
  - rewrite span_all; [|exact H1|reflexivity].
    change (N.eqb 46 46) with true. cbv iota.
    rewrite <- (app_nil_r (c :: d2)).
    rewrite span_all; [|exact Hcd|exact I]. cbn [fst].
    destruct (d1 ++ c :: d2) eqn:E.
    + now destruct d1.
    + apply of_decimal_not_nan.
Qed.

Lemma isDigit_not_sign c : isDigit c = true -> N.eqb c 45 = false /\ N.eqb c 43 = false.
Proof.
  unfold isDigit. intros H. apply andb_prop in H as [H _].
  apply N.leb_le in H. split; apply N.eqb_neq; lia.
Qed.

(** The text captured by the first group always parses to a number. *)
Lemma parseFloat_not_nan num : lang lengthNum num -> parseFloat num <> NaN.
Proof.
  intros L. apply lengthNum_shape in L
    as (sign & d1 & dot & c & d2 & -> & Hs & H1 & Hd & Hc & H2).
  pose proof (@parseUnsigned_not_nan false d1 dot c d2 H1 Hd Hc H2) as Hpos.
  destruct Hs as [-> | ->]; simpl app.
  - unfold parseFloat.
    destruct (d1 ++ dot ++ c :: d2) as [|h t] eqn:E.
    + destruct d1; destruct Hd as [-> | ->]; discriminate.
    + assert (Hh : N.eqb h 45 = false /\ N.eqb h 43 = false).
      { destruct d1 as [|a d1]; simpl in E.
        - destruct Hd as [-> | ->]; simpl in E; injection E as <- _.
          + now apply isDigit_not_sign.
          + split; reflexivity.
        - injection E as <- _. simpl in H1. apply andb_prop in H1 as [Ha _].
          now apply isDigit_not_sign. }
      destruct Hh as [-> ->]. exact Hpos.
  - unfold parseFloat. change (N.eqb 45 45) with true. cbv iota.
    now apply parseUnsigned_not_nan.
Qed.

Lemma factor_ch_finite : factor_ch = S754_finite false 5009374976147456 (-49).
Proof. reflexivity. Qed.

Lemma factor_em_finite : factor_em = S754_finite false 4503599627370496 (-48).
Proof. reflexivity. Qed.

Lemma factor_ex_finite : factor_ex = S754_finite false 4670725394792448 (-49).
Proof. reflexivity. Qed.

Lemma getQueryLength_exec s num unit :
  exec2 lengthNum lengthUnit s = Some (num, unit) ->
  lang lengthNum num /\ lang lengthUnit unit /\
  getQueryLength s = in_pixels unit (parseFloat num).
Proof.
  intros H. unfold getQueryLength. rewrite H.
  apply search_Some in H as (pre & t & _ & Ht & _).
  apply here2_sound in Ht as (post & _ & Ln & Lu).
  repeat split; auto.
  apply lengthUnit_cases in Lu as [-> | [-> | [-> | [-> | ->]]]]; reflexivity.
Qed.

(** The [switch] of [getQueryLength] always meets one of its cases. *)
Lemma getQueryLength_switch_total s num unit :
  exec2 lengthNum lengthUnit s = Some (num, unit) ->
  JsString.eqb unit (js "ch") || JsString.eqb unit (js "em")
  || JsString.eqb unit (js "rem") || JsString.eqb unit (js "ex")
  || JsString.eqb unit (js "px") = true.
Proof.
  intros H. apply getQueryLength_exec in H as (_ & Lu & _).
  apply lengthUnit_cases in Lu as [-> | [-> | [-> | [-> | ->]]]]; reflexivity.
Qed.

Lemma maxValue_not_nan : maxValue <> NaN.
Proof. discriminate. Qed.

Lemma getQueryLength_not_nan s : getQueryLength s <> NaN.
Proof.
  destruct (exec2 lengthNum lengthUnit s) as [[num unit]|] eqn:H.
  - apply getQueryLength_exec in H as (Ln & Lu & ->).
    pose proof (parseFloat_not_nan Ln) as Hn.
    apply lengthUnit_cases in Lu as [-> | [-> | [-> | [-> | ->]]]];
      unfold in_pixels; cbn [JsString.eqb js N_of_ascii N.eqb Pos.eqb andb orb];
      try assumption.
    + change (dyadic 1139 (-7)) with factor_ch. rewrite factor_ch_finite.
      now apply mul_finite_not_nan.
    + change (dyadic 16 0) with factor_em. rewrite factor_em_finite.
      now apply mul_finite_not_nan.
    + change (dyadic 531 (-6)) with factor_ex. rewrite factor_ex_finite.
      now apply mul_finite_not_nan.
    + change (dyadic 16 0) with factor_em. rewrite factor_em_finite.
      now apply mul_finite_not_nan.
  - unfold getQueryLength. rewrite H. exact maxValue_not_nan.
Qed.

(** * Properties of the comparators *)

Lemma sortCSSmq_unfold lc a b :
  sortCSSmq lc a b =
  if hasMin a && hasMax b then -1
  else if hasMax a && hasMin b then 1
  else if unmeasurable a && unmeasurable b then lc a b
  else if unmeasurable a then 1
  else if unmeasurable b then -1
  else if gt (getQueryLength a) (getQueryLength b)
       then (if hasMax a then -1 else 1)
  else if lt (getQueryLength a) (getQueryLength b)
       then (if hasMax a then 1 else -1)
  else lc a b.
Proof. reflexivity. Qed.

Lemma desktopFirst_unfold lc a b :
  desktopFirst lc a b =
  if hasMin a && hasMax b then 1
  else if hasMax a && hasMin b then -1
  else if unmeasurable a && unmeasurable b then lc a b
  else if unmeasurable a then 1
  else if unmeasurable b then -1
  else if gt (getQueryLength a) (getQueryLength b)
       then (if hasMax a then -1 else 1)
  else if lt (getQueryLength a) (getQueryLength b)
       then (if hasMax a then 1 else -1)
  else - lc a b.
Proof. reflexivity. Qed.

Lemma priority_sym a b : priority b a = priority a b.
Proof.
  unfold priority.
  destruct (hasMin a), (hasMax a), (hasMin b), (hasMax b); reflexivity.
Qed.

Lemma codeUnitCompare_antisym a : forall b,
  codeUnitCompare b a = - codeUnitCompare a b.
Proof.
  induction a as [|x a IH]; intros [|y b]; simpl; try reflexivity.
  rewrite (N.compare_antisym x y). destruct (N.compare x y); simpl; auto.
Qed.

(** Two measurable lengths that are not equal are ordered one way or the
    other: [getQueryLength] never answers [NaN]. *)
Lemma lengths_ordered a b :
  strict_eq (getQueryLength a) (getQueryLength b) = false ->
  gt (getQueryLength a) (getQueryLength b) = true \/
  lt (getQueryLength a) (getQueryLength b) = true.
Proof.
  intros H. rewrite gt_lt.
  destruct (lt_total (getQueryLength_not_nan a) (getQueryLength_not_nan b) H);
    auto.
Qed.

(** ** The documented examples

    With code-unit order standing for [localeCompare], the comparators
    reproduce the orders given in the documentation. *)

Example readme_mobile_first_ordered :
  ordered_by (sortCSSmq codeUnitCompare) readme_mobile_first = true.
Proof. vm_compute. reflexivity. Qed.

Example example_desktop_first_ordered :
  ordered_by (desktopFirst codeUnitCompare) example_desktop_first = true.
Proof. vm_compute. reflexivity. Qed.

(** ** The priority rule *)

(** C4.  When [a] is classified as a minimum-bound query
    ([isMinWidth a] or [isMinHeight a]) and [b] as a maximum-bound query
    ([isMaxWidth b] or [isMaxHeight b]), the mobile-first comparator answers
    -1 ([a] before [b]) and the desktop-first comparator answers 1 ([b]
    before [a]). *)
Theorem min_before_max lc a b :
  hasMin a = true -> hasMax b = true ->
  sortCSSmq lc a b = -1 /\ desktopFirst lc a b = 1.
Proof.
  intros Ha Hb. rewrite sortCSSmq_unfold, desktopFirst_unfold.
  rewrite Ha, Hb. split; reflexivity.
Qed.

Lemma min_before_max_witness :
  hasMin (js "screen and (min-width: 320px)") = true /\
  hasMax (js "screen and (max-width: 767px)") = true /\
  sortCSSmq codeUnitCompare (js "screen and (min-width: 320px)")
            (js "screen and (max-width: 767px)") = -1 /\
  desktopFirst codeUnitCompare (js "screen and (min-width: 320px)")
               (js "screen and (max-width: 767px)") = 1.
Proof.
  split; [reflexivity|]. split; [reflexivity|].
  apply (@min_before_max codeUnitCompare
           (js "screen and (min-width: 320px)")
           (js "screen and (max-width: 767px)")); reflexivity.
Defined.

(** C10.  A string classified both as a minimum-bound and as a
    maximum-bound query does not compare equal to itself:
    [sortCSSmq a a = -1] and [desktopFirst a a = 1], the first priority
    check firing before any length or lexicographic comparison. *)
Theorem self_compare_both_bounds lc a :
  hasMin a = true -> hasMax a = true ->
  sortCSSmq lc a a = -1 /\ desktopFirst lc a a = 1.
Proof.
  intros Hmin Hmax. rewrite sortCSSmq_unfold, desktopFirst_unfold.
  rewrite Hmin, Hmax. split; reflexivity.
Qed.

Lemma self_compare_both_bounds_witness :
  hasMin (js "(min-width: 100px) and (max-height: 200px)") = true /\
  hasMax (js "(min-width: 100px) and (max-height: 200px)") = true /\
  sortCSSmq codeUnitCompare (js "(min-width: 100px) and (max-height: 200px)")
            (js "(min-width: 100px) and (max-height: 200px)") = -1 /\
  desktopFirst codeUnitCompare (js "(min-width: 100px) and (max-height: 200px)")
               (js "(min-width: 100px) and (max-height: 200px)") = 1.
Proof.
  split; [reflexivity|]. split; [reflexivity|].
  apply (@self_compare_both_bounds codeUnitCompare
           (js "(min-width: 100px) and (max-height: 200px)")); reflexivity.
Defined.

(** ** The length rule *)

(** C7.  When the priority rule does not decide, both lengths are
    measurable and they are not equal, one of them is the larger; when
    [a]'s is the larger, [sortCSSmq a b] is 1 unless [a] is classified as a
    maximum-bound query, in which case it is -1; when [a]'s is the
    smaller, it is -1 unless [a] is a maximum-bound query, in which case it
    is 1. *)
Theorem length_rule lc a b :
  priority a b = false ->
  unmeasurable a = false -> unmeasurable b = false ->
  strict_eq (getQueryLength a) (getQueryLength b) = false ->
  (gt (getQueryLength a) (getQueryLength b) = true \/
   lt (getQueryLength a) (getQueryLength b) = true) /\
  (gt (getQueryLength a) (getQueryLength b) = true ->
   sortCSSmq lc a b = if hasMax a then -1 else 1) /\
  (lt (getQueryLength a) (getQueryLength b) = true ->
   sortCSSmq lc a b = if hasMax a then 1 else -1).
Proof.
  intros Hp Ha Hb Hne. split; [now apply lengths_ordered|].
  rewrite sortCSSmq_unfold. unfold priority in Hp.
  apply orb_false_elim in Hp as [-> ->]. rewrite Ha, Hb. simpl.
  split; intros H.
  - now rewrite H.
  - rewrite gt_lt, (lt_asym _ _ H), H. reflexivity.
Qed.

Lemma length_rule_witness :
  (sortCSSmq codeUnitCompare (js "screen and (max-width: 1023px)")
             (js "screen and (max-width: 639px)") = -1) /\
  (sortCSSmq codeUnitCompare (js "screen and (min-width: 320px)")
             (js "screen and (min-width: 640px)") = -1).
Proof.
  split.
  - apply (proj1 (proj2 (@length_rule codeUnitCompare
             (js "screen and (max-width: 1023px)")
             (js "screen and (max-width: 639px)")
             eq_refl eq_refl eq_refl eq_refl))).
    reflexivity.
  - apply (proj2 (proj2 (@length_rule codeUnitCompare
             (js "screen and (min-width: 320px)")
             (js "screen and (min-width: 640px)")
             eq_refl eq_refl eq_refl eq_refl))).
    reflexivity.
Defined.

(** C9.  When neither priority check fires, the two lengths are not both
    the sentinel and they are not equal, the two policies return the same
    value. *)
Theorem policies_agree_on_lengths lc a b :
  hasMin a && hasMax b = false -> hasMax a && hasMin b = false ->
  unmeasurable a && unmeasurable b = false ->
  strict_eq (getQueryLength a) (getQueryLength b) = false ->
  sortCSSmq lc a b = desktopFirst lc a b.
Proof.
  intros H1 H2 Hs Hne. rewrite sortCSSmq_unfold, desktopFirst_unfold.
  rewrite H1, H2, Hs.
  destruct (unmeasurable a); [reflexivity|].
  destruct (unmeasurable b); [reflexivity|].
  destruct (lengths_ordered a b Hne) as [H | H].
  - now rewrite H.
  - rewrite gt_lt, (lt_asym _ _ H), H. reflexivity.
Qed.

Lemma policies_agree_on_lengths_witness :
  sortCSSmq codeUnitCompare (js "print") (js "screen and (min-width: 640px)")
  = desktopFirst codeUnitCompare (js "print") (js "screen and (min-width: 640px)").
Proof.
  apply (@policies_agree_on_lengths codeUnitCompare
           (js "print") (js "screen and (min-width: 640px)")); reflexivity.
Defined.

(** ** Mirror policies *)

(** C1, as stated, fails: outside the lexicographic tie-break the two
    policies are not always mirrors.  For ["print"] against
    ["(min-width: 100px)"] one length is the sentinel, and both comparators
    answer 1. *)
Lemma mirror_outside_tie_break_fails :
  ~ (forall lc a b,
        tie_break_branch a b = false ->
        sortCSSmq lc a b = - desktopFirst lc a b).
Proof.
  intros H.
  specialize (H codeUnitCompare (js "print") (js "(min-width: 100px)") eq_refl).
  vm_compute in H. discriminate H.
Qed.

(** C1, amended.  Outside the lexicographic tie-break branches,
    [sortCSSmq a b = - desktopFirst a b] holds exactly when the comparison
    is decided by the min/max priority rule; in the single-sentinel and
    unequal-length branches the two comparators return the same non-zero
    value. *)
Theorem mirror_iff_priority lc a b :
  tie_break_branch a b = false ->
  (sortCSSmq lc a b = - desktopFirst lc a b <-> priority a b = true).
Proof.
  intros H. rewrite sortCSSmq_unfold, desktopFirst_unfold.
  unfold tie_break_branch, priority in *.
  destruct (hasMin a && hasMax b); [simpl; split; auto|].
  destruct (hasMax a && hasMin b); [simpl; split; auto|].
  simpl in *.
  destruct (unmeasurable a), (unmeasurable b); simpl in *;
    try discriminate; try (split; [lia|discriminate]).
  destruct (gt (getQueryLength a) (getQueryLength b)); simpl in *.
  - destruct (hasMax a); split; try lia; discriminate.
  - destruct (lt (getQueryLength a) (getQueryLength b)); [|discriminate].
    destruct (hasMax a); split; try lia; discriminate.
Qed.

Lemma mirror_iff_priority_witness :
  sortCSSmq codeUnitCompare (js "screen and (min-width: 320px)")
            (js "screen and (max-width: 767px)")
  = - desktopFirst codeUnitCompare (js "screen and (min-width: 320px)")
                   (js "screen and (max-width: 767px)").
Proof.
  apply (proj2 (@mirror_iff_priority codeUnitCompare
                  (js "screen and (min-width: 320px)")
                  (js "screen and (max-width: 767px)") eq_refl)).
  reflexivity.
Defined.

(** ** The sentinel *)

(** C2, as stated, fails: an unmeasurable string does not always sort
    after a measurable one.  ["screen and (min-width: 0)"] has no length
    and ["screen and (max-width: 767px)"] has one, yet the priority rule
    decides first and the mobile-first comparator puts the former before
    the latter. *)
Lemma sentinel_sorts_last_fails :
  ~ (forall lc a b,
        unmeasurable a = true -> unmeasurable b = false ->
        sortCSSmq lc a b > 0 /\ sortCSSmq lc b a < 0 /\
        desktopFirst lc a b > 0 /\ desktopFirst lc b a < 0).
Proof.
  intros H.
  destruct (H codeUnitCompare (js "screen and (min-width: 0)")
              (js "screen and (max-width: 767px)") eq_refl eq_refl) as [H1 _].
  vm_compute in H1. discriminate H1.
Qed.

(** C2, amended.  A string holding no number immediately followed by a
    unit has the sentinel [Number.MAX_VALUE] as its length; and when the
    priority rule does not decide and exactly one of the two extracted
    lengths is the sentinel, both comparators order the string whose length
    is the sentinel after the other one. *)
Theorem sentinel_sorts_last :
  (forall s,
      (forall pre num unit post, ~ length_at s pre num unit post) ->
      getQueryLength s = maxValue) /\
  (forall lc a b,
      priority a b = false ->
      unmeasurable a = true -> unmeasurable b = false ->
      sortCSSmq lc a b = 1 /\ sortCSSmq lc b a = -1 /\
      desktopFirst lc a b = 1 /\ desktopFirst lc b a = -1).
Proof.
  split.
  - intros s H. apply exec2_None_iff in H.
    unfold getQueryLength. now rewrite H.
  - intros lc a b Hp Ha Hb.
    pose proof Hp as Hq. rewrite <- priority_sym in Hq.
    unfold priority in Hp, Hq.
    apply orb_false_elim in Hp as [Hp1 Hp2].
    apply orb_false_elim in Hq as [Hq1 Hq2].
    rewrite !sortCSSmq_unfold, !desktopFirst_unfold.
    rewrite Hp1, Hp2, Hq1, Hq2, Ha, Hb. simpl. auto.
Qed.

Lemma sentinel_sorts_last_witness :
  getQueryLength (js "print") = maxValue /\
  sortCSSmq codeUnitCompare (js "print") (js "screen and (min-width: 320px)") = 1 /\
  sortCSSmq codeUnitCompare (js "screen and (min-width: 320px)") (js "print") = -1 /\
  desktopFirst codeUnitCompare (js "print") (js "screen and (min-width: 320px)") = 1 /\
  desktopFirst codeUnitCompare (js "screen and (min-width: 320px)") (js "print") = -1.
Proof.
  split.
  - apply (proj1 sentinel_sorts_last (js "print")).
    apply exec2_None_iff. reflexivity.
  - apply (proj2 sentinel_sorts_last codeUnitCompare
             (js "print") (js "screen and (min-width: 320px)"));
      reflexivity.
Defined.

(** ** Antisymmetry *)

(** C3 does not hold of the code.  Whatever [localeCompare] answers, the
    mobile-first comparator breaks antisymmetry on ordinary queries: a
    query with a minimum bound on one axis and a maximum bound on the other
    compares as -1 with itself; two such queries compare as -1 in both
    orders; and a maximum-bound query against an unclassified one of a
    different length compares as -1 in both orders. *)
Theorem sortCSSmq_inconsistent_pairs lc :
  sortCSSmq lc (js "(min-width: 100px) and (max-height: 200px)")
            (js "(min-width: 100px) and (max-height: 200px)") = -1 /\
  sortCSSmq lc (js "(min-width: 100px) and (max-height: 200px)")
            (js "(min-height: 300px) and (max-width: 400px)") = -1 /\
  sortCSSmq lc (js "(min-height: 300px) and (max-width: 400px)")
            (js "(min-width: 100px) and (max-height: 200px)") = -1 /\
  sortCSSmq lc (js "(max-width: 200px)") (js "(width: 100px)") = -1 /\
  sortCSSmq lc (js "(width: 100px)") (js "(max-width: 200px)") = -1.
Proof. repeat split; vm_compute; reflexivity. Qed.

(** Hence no antisymmetric [localeCompare] makes the comparator
    antisymmetric on all pairs with a non-zero result. *)
Lemma sortCSSmq_antisymmetry_fails :
  ~ (forall lc : jsstring -> jsstring -> Z,
        (forall x y, lc y x = - lc x y) ->
        forall a b,
          sortCSSmq lc a b <> 0 -> sortCSSmq lc a b = - sortCSSmq lc b a).
Proof.
  intros H.
  specialize (H codeUnitCompare (fun x y => codeUnitCompare_antisym x y)
                (js "(min-width: 100px) and (max-height: 200px)")
                (js "(min-width: 100px) and (max-height: 200px)")).
  vm_compute in H. specialize (H ltac:(discriminate)). discriminate H.
Qed.

(** X17.  Where the mobile-first comparator is antisymmetric: for an
    antisymmetric [localeCompare], [sortCSSmq a b = - sortCSSmq b a] holds
    for every pair in which the two strings are not both classified as
    minimum- and maximum-bound at once and in which, whenever the priority
    rule does not decide and the two lengths are measurable and different,
    [a] and [b] agree on being a maximum-bound query; in particular
    [sortCSSmq a a = 0] for every [a] not classified as both. *)
Theorem sortCSSmq_antisymmetric (lc : jsstring -> jsstring -> Z) :
  (forall x y, lc y x = - lc x y) ->
  (forall a b,
      hasMin a && hasMax a && (hasMin b && hasMax b) = false ->
      (priority a b = false ->
       unmeasurable a = false -> unmeasurable b = false ->
       strict_eq (getQueryLength a) (getQueryLength b) = false ->
       hasMax a = hasMax b) ->
      sortCSSmq lc a b = - sortCSSmq lc b a) /\
  (forall a, hasMin a && hasMax a = false -> sortCSSmq lc a a = 0).
Proof.
  intros Hlc.
  assert (Hanti : forall a b,
      hasMin a && hasMax a && (hasMin b && hasMax b) = false ->
      (priority a b = false ->
       unmeasurable a = false -> unmeasurable b = false ->
       strict_eq (getQueryLength a) (getQueryLength b) = false ->
       hasMax a = hasMax b) ->
      sortCSSmq lc a b = - sortCSSmq lc b a).
  { intros a b Hboth Hmax. rewrite !sortCSSmq_unfold.
    unfold priority in Hmax. rewrite (Hlc a b), !gt_lt.
    destruct (hasMin a), (hasMax a), (hasMin b), (hasMax b);
      simpl in *; try discriminate; try reflexivity;
      destruct (unmeasurable a), (unmeasurable b); simpl; try lia;
      specialize (Hmax eq_refl eq_refl eq_refl);
      (destruct (strict_eq (getQueryLength a) (getQueryLength b)) eqn:He;
       [ destruct (strict_eq_not_lt _ _ He) as [-> ->]; lia
       | try (specialize (Hmax eq_refl); discriminate);
         destruct (lengths_ordered a b He) as [H | H]; rewrite ?gt_lt in H;
         rewrite H, (lt_asym _ _ H); lia ]). }
  split; [exact Hanti|].
  intros a Ha.
  assert (H : sortCSSmq lc a a = - sortCSSmq lc a a).
  { apply Hanti.
    - rewrite Ha. reflexivity.
    - intros _ _ _ He.
      rewrite (strict_eq_refl (getQueryLength_not_nan a)) in He. discriminate. }
  lia.
Qed.

Lemma sortCSSmq_antisymmetric_witness :
  sortCSSmq codeUnitCompare (js "screen and (min-width: 640px)")
            (js "screen and (min-width: 320px)")
  = - sortCSSmq codeUnitCompare (js "screen and (min-width: 320px)")
                (js "screen and (min-width: 640px)") /\
  sortCSSmq codeUnitCompare (js "print") (js "print") = 0.
Proof.
  split.
  - apply (proj1 (@sortCSSmq_antisymmetric codeUnitCompare
                    (fun x y => codeUnitCompare_antisym x y))
             (js "screen and (min-width: 640px)")
             (js "screen and (min-width: 320px)")).
    + reflexivity.
    + intros _ _ _ _. reflexivity.
  - apply (proj2 (@sortCSSmq_antisymmetric codeUnitCompare
                    (fun x y => codeUnitCompare_antisym x y))
             (js "print")).
    reflexivity.
Defined.

(** ** Classification *)

(** C6, as stated, fails: a string can match both ordered patterns, as
    ["(min-width: 100px) and (max-width: 200px), (min-width: 300px)"] does,
    and then the is-max predicate answers [true] although the "min...max"
    pattern matches. *)
Lemma combined_pattern_fails :
  ~ (forall q,
        test minMaxWidth q = true ->
        isMinWidth q = true /\ isMaxWidth q = false).
Proof.
  intros H.
  destruct (H (js "(min-width: 100px) and (max-width: 200px), (min-width: 300px)")
              eq_refl) as [_ H0].
  vm_compute in H0. discriminate H0.
Qed.

(** C6, amended.  On each axis: when the "min...max" pattern matches,
    the is-min predicate answers [true], and the is-max predicate answers
    [false] unless the "max...min" pattern matches as well, in which case
    it answers [true]; symmetrically when the "max...min" pattern
    matches; when neither combined pattern matches, each predicate is its
    single-sided pattern test. *)
Theorem classification_by_patterns q :
  (test minMaxWidth q = true ->
   isMinWidth q = true /\ isMaxWidth q = test maxMinWidth q) /\
  (test maxMinWidth q = true ->
   isMaxWidth q = true /\ isMinWidth q = test minMaxWidth q) /\
  (test minMaxWidth q = false -> test maxMinWidth q = false ->
   isMinWidth q = test minWidth q /\ isMaxWidth q = test maxWidth q) /\
  (test minMaxHeight q = true ->
   isMinHeight q = true /\ isMaxHeight q = test maxMinHeight q) /\
  (test maxMinHeight q = true ->
   isMaxHeight q = true /\ isMinHeight q = test minMaxHeight q) /\
  (test minMaxHeight q = false -> test maxMinHeight q = false ->
   isMinHeight q = test minHeight q /\ isMaxHeight q = test maxHeight q).
Proof.
  unfold isMinWidth, isMaxWidth, isMinHeight, isMaxHeight, testQuery.
  repeat split; intros;
    repeat match goal with H : test _ _ = _ |- _ => rewrite H; clear H end;
    try reflexivity;
    match goal with |- (if ?c then _ else _) = _ => destruct c; reflexivity end.
Qed.

Lemma classification_by_patterns_witness :
  (isMinWidth (js "screen and (min-width: 320px) and (max-width: 767px)") = true /\
   isMaxWidth (js "screen and (min-width: 320px) and (max-width: 767px)") = false) /\
  (isMaxHeight (js "screen and (max-height: 767px) and (min-height: 320px)") = true /\
   isMinHeight (js "screen and (max-height: 767px) and (min-height: 320px)") = false) /\
  (isMinWidth (js "screen and (min-width: 640px)") = true /\
   isMaxWidth (js "screen and (min-width: 640px)") = false).
Proof.
  split; [|split].
  - apply (proj1 (classification_by_patterns
             (js "screen and (min-width: 320px) and (max-width: 767px)"))).
    reflexivity.
  - apply (proj1 (proj2 (proj2 (proj2 (proj2 (classification_by_patterns
             (js "screen and (max-height: 767px) and (min-height: 320px)"))))))).
    reflexivity.
  - apply (proj1 (proj2 (proj2 (classification_by_patterns
             (js "screen and (min-width: 640px)"))))); reflexivity.
Defined.

(** ** Length extraction *)

Lemma spec_digit_iff c : spec_digit c <-> isDigit c = true.
Proof.
  unfold spec_digit, isDigit. simpl. split.
  - intros H. repeat (destruct H as [<- | H]; [reflexivity|]). contradiction.
  - intros H. apply andb_prop in H as [H1 H2].
    apply N.leb_le in H1, H2.
    assert (c = 48 \/ c = 49 \/ c = 50 \/ c = 51 \/ c = 52 \/ c = 53 \/
            c = 54 \/ c = 55 \/ c = 56 \/ c = 57)%N by lia.
    intuition.
Qed.

Lemma spec_digits_iff l : Forall spec_digit l <-> forallb isDigit l = true.
Proof.
  rewrite forallb_forall, Forall_forall.
  split; intros H c Hc; apply spec_digit_iff; auto.
Qed.

Lemma spec_units_iff u : In u spec_units <-> lang lengthUnit u.
Proof.
  split.
  - unfold spec_units. simpl.
    intros [<- | [<- | [<- | [<- | [<- | []]]]]]; apply matchesb_iff; reflexivity.
  - intros L. apply lengthUnit_cases in L as [-> | [-> | [-> | [-> | ->]]]];
      unfold spec_units; simpl; auto 10.
Qed.

(** Building a text of the numeric pattern from its parts. *)
Lemma lengthNum_intro neg d1 dot c d2 :
  forallb isDigit d1 = true -> dot = [] \/ dot = js "." ->
  isDigit c = true -> forallb isDigit d2 = true ->
  lang lengthNum (spec_sign neg ++ d1 ++ dot ++ c :: d2).
Proof.
  intros H1 Hd Hc H2. unfold lengthNum, re_seq. simpl fold_right.
  apply L_seq.
  - destruct neg; simpl; [|apply L_opt_none].
    apply L_opt_some. apply (@L_seq (Cls (CChar 45%N)) Eps [45%N] []).
    + now constructor.
    + constructor.
  - apply L_seq; [now constructor|]. apply L_seq.
    + destruct Hd as [-> | ->]; [apply L_opt_none|].
      apply L_opt_some. apply (@L_seq (Cls (CChar 46%N)) Eps [46%N] []).
      * now constructor.
      * constructor.
    + rewrite <- (app_nil_r (c :: d2)). apply L_seq; constructor; auto.
Qed.

Lemma spec_number_lang num neg ip fp :
  spec_number num neg ip fp -> lang lengthNum num.
Proof.
  intros [neg' ip' Hne Hip | neg' ip' fp' Hne Hip Hfp].
  - destruct ip' as [|c d2]; [now elim Hne|].
    apply spec_digits_iff in Hip. simpl in Hip.
    apply andb_prop in Hip as [Hc H2].
    apply (@lengthNum_intro neg' [] [] c d2); auto.
  - destruct fp' as [|c d2]; [now elim Hne|].
    apply spec_digits_iff in Hip, Hfp. simpl in Hfp.
    apply andb_prop in Hfp as [Hc H2].
    apply (@lengthNum_intro neg' ip' (js ".") c d2); auto.
Qed.

Lemma lang_spec_number num :
  lang lengthNum num -> exists neg ip fp, spec_number num neg ip fp.
Proof.
  intros L. apply lengthNum_shape in L
    as (sign & d1 & dot & c & d2 & -> & Hs & H1 & Hd & Hc & H2).
  assert (Hcd : forallb isDigit (c :: d2) = true) by (simpl; now rewrite Hc).
  assert (Hsign : exists neg, sign = spec_sign neg).
  { destruct Hs as [-> | ->]; [now exists false | now exists true]. }
  destruct Hsign as [neg ->].
  destruct Hd as [-> | ->].
  - exists neg, (d1 ++ c :: d2), []. apply spec_integer.
    + now destruct d1.
    + apply spec_digits_iff. rewrite forallb_app, H1. exact Hcd.
  - exists neg, d1, (c :: d2). apply spec_decimal.
    + discriminate.
    + now apply spec_digits_iff.
    + now apply spec_digits_iff.
Qed.

Lemma digits_val_fold ds : forall acc,
  fold_left (fun acc c => 10 * acc + (c - 48))%N ds acc
  = (acc * 10 ^ N.of_nat (List.length ds) + spec_natural ds)%N.
Proof.
  induction ds as [|d t IH]; intros acc.
  - simpl. lia.
  - cbn [fold_left List.length spec_natural]. rewrite IH.
    rewrite Nat2N.inj_succ, N.pow_succ_r'.
    unfold jsstring, code_unit in *.
    generalize (d - 48)%N (10 ^ N.of_nat (List.length t))%N (spec_natural t).
    intros x q r. nia.
Qed.

Lemma digits_val_spec ds : digits_val ds = spec_natural ds.
Proof. unfold digits_val. rewrite digits_val_fold. lia. Qed.

Lemma parseUnsigned_integer neg ip :
  ip <> [] -> forallb isDigit ip = true ->
  parseUnsigned neg ip = spec_value neg ip [].
Proof.
  intros Hne Hip. unfold parseUnsigned, spec_value.
  pose proof (@span_all isDigit ip [] Hip I) as Hs.
  rewrite app_nil_r in Hs. rewrite Hs.
  destruct (ip ++ []) eqn:E; [|now rewrite digits_val_spec].
  rewrite app_nil_r in E. now elim Hne.
Qed.

Lemma parseUnsigned_decimal neg ip fp :
  fp <> [] -> forallb isDigit ip = true -> forallb isDigit fp = true ->
  parseUnsigned neg (ip ++ js "." ++ fp) = spec_value neg ip fp.
Proof.
  intros Hne Hip Hfp. unfold parseUnsigned, spec_value. simpl app.
  rewrite span_all; [|exact Hip|reflexivity].
  change (N.eqb 46 46) with true. cbv iota.
  pose proof (@span_all isDigit fp [] Hfp I) as Hs.
  rewrite app_nil_r in Hs. rewrite Hs. cbn [fst].
  destruct (ip ++ fp) eqn:E; [|now rewrite digits_val_spec].
  apply app_eq_nil in E as [_ E]. now elim Hne.
Qed.

Lemma parseFloat_unsigned t :
  match t with
  | h :: _ => isDigit h = true \/ h = 46%N
  | [] => False
  end ->
  parseFloat t = parseUnsigned false t.
Proof.
  destruct t as [|h t]; [contradiction|]. intros Hh. unfold parseFloat.
  assert (H : N.eqb h 45 = false /\ N.eqb h 43 = false).
  { destruct Hh as [Hh | ->]; [now apply isDigit_not_sign|split; reflexivity]. }
  destruct H as [-> ->]. reflexivity.
Qed.

(** [parseFloat] reads the text of a number as its numeric value. *)
Lemma parseFloat_spec num neg ip fp :
  spec_number num neg ip fp -> parseFloat num = spec_value neg ip fp.
Proof.
  intros [neg' ip' Hne Hip | neg' ip' fp' Hne Hip Hfp].
  - apply spec_digits_iff in Hip.
    destruct neg'; simpl spec_sign.
    + change (parseFloat (js "-" ++ ip')) with (parseUnsigned true ip').
      now apply parseUnsigned_integer.
    + simpl app. rewrite parseFloat_unsigned.
      * now apply parseUnsigned_integer.
      * destruct ip' as [|h t]; [now elim Hne|]. simpl in Hip.
        apply andb_prop in Hip as [Hh _]. now left.
  - apply spec_digits_iff in Hip, Hfp.
    destruct neg'; simpl spec_sign.
    + change (parseFloat (js "-" ++ ip' ++ js "." ++ fp'))
        with (parseUnsigned true (ip' ++ js "." ++ fp')).
      now apply parseUnsigned_decimal.
    + simpl app at 1. rewrite parseFloat_unsigned.
      * now apply parseUnsigned_decimal.
      * destruct ip' as [|h t]; simpl.
        -- now right.
        -- simpl in Hip. apply andb_prop in Hip as [Hh _]. now left.
Qed.

Lemma spec_length_at_pattern s pre num unit post neg ip fp :
  spec_length_at s pre num unit post neg ip fp ->
  length_at s pre num unit post.
Proof.
  intros (E & Hn & Hu). repeat split; auto.
  - eapply spec_number_lang; eauto.
  - now apply spec_units_iff.
Qed.

Lemma pattern_spec_length_at s pre num unit post :
  length_at s pre num unit post ->
  exists neg ip fp, spec_length_at s pre num unit post neg ip fp.
Proof.
  intros (E & Ln & Lu).
  destruct (lang_spec_number Ln) as (neg & ip & fp & Hn).
  exists neg, ip, fp. repeat split; auto. now apply spec_units_iff.
Qed.

Lemma spec_first_pattern s pre num unit post neg ip fp :
  spec_first_length_at s pre num unit post neg ip fp ->
  first_length_at s pre num unit post.
Proof.
  intros [Hat Hfirst]. split; [eapply spec_length_at_pattern; eauto|].
  intros pre' num' unit' post' Hat'.
  destruct (pattern_spec_length_at Hat') as (neg' & ip' & fp' & Hs).
  eapply Hfirst; eauto.
Qed.

Lemma none_before_spec_first s n :
  none_before s n = true ->
  forall pre num unit post neg ip fp,
    spec_length_at s pre num unit post neg ip fp ->
    (n <= List.length pre)%nat.
Proof.
  intros H pre num unit post neg ip fp Hat.
  eapply none_before_first; [exact H|].
  eapply spec_length_at_pattern; eauto.
Qed.

(** C8.  When a string holds a number immediately followed by one of the
    units [ch], [em], [ex], [px], [rem], [getQueryLength] returns the
    numeric value of the first such occurrence multiplied by the factor of
    its unit (8.8984375 for [ch], 16 for [em] and [rem], 8.296875 for [ex];
    the factor 1 of [px] leaves the value as it is).  Numbers, units and
    numeric values are those of the specification ([spec_number],
    [spec_units], [spec_value]).  In particular ["(min-width: 1em)"] and
    ["(min-width: 16px)"] both have length 16; further lengths are
    10ch = 88.984375, 2.5em = 40, 1.5ex = 12.4453125, 12rem = 192,
    -.5px = -0.5, and 0.1px the binary64 number nearest to 0.1. *)
Theorem first_length_in_pixels :
  (forall s,
      (exists pre num unit post neg ip fp,
          spec_length_at s pre num unit post neg ip fp) ->
      exists pre num unit post neg ip fp,
        spec_first_length_at s pre num unit post neg ip fp /\
        getQueryLength s = in_pixels unit (spec_value neg ip fp)) /\
  (forall s pre num unit post neg ip fp,
      spec_first_length_at s pre num unit post neg ip fp ->
      getQueryLength s = in_pixels unit (spec_value neg ip fp)) /\
  getQueryLength (js "(min-width: 1em)") = dyadic 16 0 /\
  getQueryLength (js "(min-width: 16px)") = dyadic 16 0 /\
  getQueryLength (js "(min-width: 10ch)") = dyadic 5695 (-6) /\
  getQueryLength (js "(min-width: 2.5em)") = dyadic 40 0 /\
  getQueryLength (js "(min-width: 1.5ex)") = dyadic 1593 (-7) /\
  getQueryLength (js "(min-width: 12rem)") = dyadic 192 0 /\
  getQueryLength (js "(min-width: -.5px)") = dyadic (-1) (-1) /\
  getQueryLength (js "(min-width: 0.1px)") = dyadic 3602879701896397 (-55).
Proof.
  split; [|split; [|repeat split; reflexivity]].
  - intros s (pre & num & unit & post & neg & ip & fp & Hat).
    apply spec_length_at_pattern in Hat.
    destruct (exec2 lengthNum lengthUnit s) as [[m1 m2]|] eqn:Hs.
    + pose proof Hs as H0.
      apply exec2_Some_first in H0 as (pre0 & post0 & [Hat0 Hfirst0]).
      destruct (pattern_spec_length_at Hat0) as (neg0 & ip0 & fp0 & Hsp).
      exists pre0, m1, m2, post0, neg0, ip0, fp0. split.
      * split; [exact Hsp|].
        intros pre' num' unit' post' neg' ip' fp' Hat'.
        apply (Hfirst0 pre' num' unit' post').
        eapply spec_length_at_pattern; eauto.
      * apply getQueryLength_exec in Hs as (_ & _ & ->).
        destruct Hsp as (_ & Hn & _). now rewrite (parseFloat_spec Hn).
    + rewrite exec2_None_iff in Hs. now elim (Hs _ _ _ _ Hat).
  - intros s pre num unit post neg ip fp Hfirst.
    pose proof (spec_first_pattern Hfirst) as H.
    apply exec2_first in H.
    apply getQueryLength_exec in H as (_ & _ & ->).
    destruct Hfirst as [(_ & Hn & _) _]. now rewrite (parseFloat_spec Hn).
Qed.

Lemma first_length_in_pixels_witness :
  getQueryLength (js "screen and (min-width: 2.5em) and (max-width: 100px)")
  = dyadic 40 0.
Proof.
  refine (eq_trans
            (proj1 (proj2 first_length_in_pixels)
               (js "screen and (min-width: 2.5em) and (max-width: 100px)")
               (js "screen and (min-width: ") (js "2.5") (js "em")
               (js ") and (max-width: 100px)") false (js "2") (js "5") _) _).
  - split.
    + split; [reflexivity|]. split.
      * apply (@spec_decimal false (js "2") (js "5")).
        -- discriminate.
        -- apply Forall_cons; [|apply Forall_nil].
           unfold spec_digit. simpl. auto 20.
        -- apply Forall_cons; [|apply Forall_nil].
           unfold spec_digit. simpl. auto 20.
      * unfold spec_units. simpl. auto.
    + exact (@none_before_spec_first
               (js "screen and (min-width: 2.5em) and (max-width: 100px)")
               23 eq_refl).
  - reflexivity.
Defined.

(** A decimal that rounds to [Number.MAX_VALUE] is extracted as the
    sentinel itself, and is then treated as unmeasurable. *)
Example max_value_length_is_sentinel :
  unmeasurable (js "17976931348623157" ++ repeat 48%N 292 ++ js "px") = true.
Proof. vm_compute. reflexivity. Qed.

(** ** Device-prefixed features *)

(** C5 does not hold of the code.  ["min-device-width"] is not matched by
    the optional group [(-device-)?] of [minMaxWidth], so a device-prefixed
    width range is not recognised as a "min...max" pair: its is-max
    predicate answers [true], while the same query without the prefix
    answers [false].  The height patterns, written [(-device)?], treat the
    two spellings alike. *)
Example device_prefix_changes_width_class :
  undevice (js "screen and (min-device-width: 320px) and (max-device-width: 767px)")
  = js "screen and (min-width: 320px) and (max-width: 767px)" /\
  test minMaxWidth
    (js "screen and (min-device-width: 320px) and (max-device-width: 767px)") = false /\
  test minMaxWidth
    (js "screen and (min-width: 320px) and (max-width: 767px)") = true /\
  isMaxWidth
    (js "screen and (min-device-width: 320px) and (max-device-width: 767px)") = true /\
  isMaxWidth
    (undevice (js "screen and (min-device-width: 320px) and (max-device-width: 767px)"))
  = false /\
  isMaxHeight
    (js "screen and (min-device-height: 320px) and (max-device-height: 767px)") = false /\
  isMaxHeight
    (undevice (js "screen and (min-device-height: 320px) and (max-device-height: 767px)"))
  = false.
Proof. vm_compute. repeat split. Qed.

(** * Further properties of the classifiers *)

Lemma lang_seq_inv r1 r2 m :
  lang (Seq r1 r2) m -> exists u v, m = u ++ v /\ lang r1 u /\ lang r2 v.
Proof. intros L. inversion L; subst. eauto. Qed.

Lemma lang_re_seq_app l1 : forall l2 m,
  lang (re_seq (l1 ++ l2)) m ->
  exists u v, m = u ++ v /\ lang (re_seq l1) u /\ lang (re_seq l2) v.
Proof.
  induction l1 as [|r l1 IH]; simpl; intros l2 m L.
  - exists [], m. repeat split; auto. constructor.
  - apply lang_seq_inv in L as (u & v & -> & Lr & L).
    apply IH in L as (u1 & v1 & -> & L1 & L2).
    exists (u ++ u1), v1. rewrite app_assoc. repeat split; auto.
    now constructor.
Qed.

Lemma test_sub r1 r2 q :
  (forall m, lang r1 m -> exists a m' b, m = a ++ m' ++ b /\ lang r2 m') ->
  test r1 q = true -> test r2 q = true.
Proof.
  intros Hsub H. apply test_true_iff in H as (pre & m & post & -> & L).
  apply Hsub in L as (a & m' & b & -> & L').
  apply test_true_iff. exists (pre ++ a), m', (b ++ post).
  rewrite <- !app_assoc. auto.
Qed.

(** A combined pattern is made of a first feature, [.+], and a second
    feature. *)
Lemma combined_parts first second m :
  lang (re_seq (bang_opt :: first ++ Plus CDot :: second)) m ->
  (exists a m' b, m = a ++ m' ++ b /\ lang (re_seq first) m') /\
  (exists a m' b, m = a ++ m' ++ b /\ lang (re_seq second) m').
Proof.
  intros L. change (re_seq (bang_opt :: first ++ Plus CDot :: second))
    with (Seq bang_opt (re_seq (first ++ [Plus CDot] ++ second))) in L.
  apply lang_seq_inv in L as (u0 & v0 & -> & _ & L).
  apply lang_re_seq_app in L as (u1 & v1 & -> & L1 & L).
  apply (lang_re_seq_app [Plus CDot]) in L as (u2 & v2 & -> & _ & L2).
  split.
  - exists u0, u1, (u2 ++ v2). auto.
  - exists (u0 ++ u1 ++ u2), v2, []. rewrite app_nil_r, <- !app_assoc. auto.
Qed.

Lemma maxMinWidth_single q :
  test maxMinWidth q = true -> test maxWidth q = true /\ test minWidth q = true.
Proof.
  intros H; split; revert H; apply test_sub; intros m L;
    apply (combined_parts [lparen_ws; lit "max"; device_opt; lit "-width"]
             [lparen_ws; lit "min"; device_opt; lit "-width"]) in L;
    tauto.
Qed.

Lemma minMaxWidth_single q :
  test minMaxWidth q = true -> test maxWidth q = true.
Proof.
  apply test_sub; intros m L.
  apply (combined_parts
           [lparen_ws; lit "min"; Opt (lit "-device-"); lit "-width"]
           [lparen_ws; lit "max"; device_opt; lit "-width"]) in L.
  tauto.
Qed.

Lemma minMaxHeight_single q :
  test minMaxHeight q = true -> test minHeight q = true /\ test maxHeight q = true.
Proof.
  intros H; split; revert H; apply test_sub; intros m L;
    apply (combined_parts [lparen_ws; lit "min"; device_opt; lit "-height"]
             [lparen_ws; lit "max"; device_opt; lit "-height"]) in L;
    tauto.
Qed.

Lemma maxMinHeight_single q :
  test maxMinHeight q = true -> test maxHeight q = true /\ test minHeight q = true.
Proof.
  intros H; split; revert H; apply test_sub; intros m L;
    apply (combined_parts [lparen_ws; lit "max"; device_opt; lit "-height"]
             [lparen_ws; lit "min"; device_opt; lit "-height"]) in L;
    tauto.
Qed.

(** X1.  A query is left unclassified (neither minimum- nor
    maximum-bound) exactly when none of the four single-sided patterns
    [minWidth], [maxWidth], [minHeight], [maxHeight] matches it. *)
Theorem unclassified_iff q :
  hasMin q = false /\ hasMax q = false <->
  test minWidth q = false /\ test maxWidth q = false /\
  test minHeight q = false /\ test maxHeight q = false.
Proof.
  unfold hasMin, hasMax, isMinWidth, isMaxWidth, isMinHeight, isMaxHeight,
    testQuery.
  pose proof (maxMinWidth_single q) as H1.
  pose proof (minMaxWidth_single q) as H2.
  pose proof (minMaxHeight_single q) as H3.
  pose proof (maxMinHeight_single q) as H4.
  destruct (test minMaxWidth q), (test maxMinWidth q), (test minWidth q),
    (test maxWidth q), (test minMaxHeight q), (test maxMinHeight q),
    (test minHeight q), (test maxHeight q); simpl; intuition congruence.
Qed.

(** X2.  The is-max predicates and the is-min predicate of the height
    axis answer [true] only for a query their single-sided pattern
    matches: a query classified as maximum-bound does hold a max-width or
    max-height feature, and one classified as min-height a min-height
    feature. *)
Theorem classified_has_feature q :
  (isMaxWidth q = true -> test maxWidth q = true) /\
  (isMaxHeight q = true -> test maxHeight q = true) /\
  (isMinHeight q = true -> test minHeight q = true) /\
  (hasMax q = true -> test maxWidth q || test maxHeight q = true).
Proof.
  unfold hasMax, isMaxWidth, isMaxHeight, isMinHeight, testQuery.
  pose proof (maxMinWidth_single q) as H1.
  pose proof (minMaxHeight_single q) as H3.
  pose proof (maxMinHeight_single q) as H4.
  destruct (test minMaxWidth q), (test maxMinWidth q),
    (test maxWidth q), (test minMaxHeight q), (test maxMinHeight q),
    (test minHeight q), (test maxHeight q); simpl; intuition congruence.
Qed.

Lemma classified_has_feature_witness :
  test maxWidth (js "screen and (max-width: 767px) and (min-width: 320px)") = true /\
  test minHeight (js "screen and (min-height: 480px)") = true.
Proof.
  split.
  - apply (proj1 (classified_has_feature
             (js "screen and (max-width: 767px) and (min-width: 320px)"))).
    reflexivity.
  - apply (proj1 (proj2 (proj2 (classified_has_feature
             (js "screen and (min-height: 480px)"))))).
    reflexivity.
Defined.

Lemma single_has_paren feature m :
  lang (re_seq (lparen_ws :: feature)) m -> exists m', m = 40%N :: m'.
Proof.
  intros L. change (re_seq (lparen_ws :: feature))
    with (Seq (Seq (lit "(") (Star CSpace)) (re_seq feature)) in L.
  simpl in L. lang_inv. simpl in *.
  match goal with H : N.eqb _ _ = true |- _ => apply N.eqb_eq in H; subst end.
  eauto.
Qed.

Lemma noParen_single feature q :
  noParen q = true -> test (re_seq (lparen_ws :: feature)) q = false.
Proof.
  intros Hq. destruct (test _ q) eqn:H; [exfalso|reflexivity].
  apply test_true_iff in H as (pre & m & post & -> & L).
  apply single_has_paren in L as (m' & ->).
  unfold noParen in Hq. rewrite forallb_app in Hq. simpl in Hq.
  apply andb_prop in Hq as [_ Hq]. discriminate Hq.
Qed.

Lemma no_single_no_class q :
  test minWidth q = false -> test maxWidth q = false ->
  test minHeight q = false -> test maxHeight q = false ->
  isMinWidth q = false /\ isMaxWidth q = false /\
  isMinHeight q = false /\ isMaxHeight q = false.
Proof.
  intros A1 A2 A3 A4.
  pose proof (maxMinWidth_single q) as H1.
  pose proof (minMaxWidth_single q) as H2.
  pose proof (minMaxHeight_single q) as H3.
  pose proof (maxMinHeight_single q) as H4.
  unfold isMinWidth, isMaxWidth, isMinHeight, isMaxHeight, testQuery.
  rewrite A1, A2, A3, A4 in *.
  destruct (test minMaxWidth q), (test maxMinWidth q),
    (test minMaxHeight q), (test maxMinHeight q); simpl; intuition congruence.
Qed.

(** X3.  A query without an opening parenthesis, such as a bare media
    type, is never classified: the four predicates answer [false]. *)
Theorem noParen_unclassified q :
  noParen q = true ->
  isMinWidth q = false /\ isMaxWidth q = false /\
  isMinHeight q = false /\ isMaxHeight q = false.
Proof.
  intros Hq. apply no_single_no_class.
  - exact (noParen_single [lit "min"; device_opt; lit "-width"] q Hq).
  - exact (noParen_single [lit "max"; device_opt; lit "-width"] q Hq).
  - exact (noParen_single [lit "min"; device_opt; lit "-height"] q Hq).
  - exact (noParen_single [lit "max"; device_opt; lit "-height"] q Hq).
Qed.

Lemma noParen_unclassified_witness :
  isMinWidth (js "print") = false /\ isMaxWidth (js "print") = false /\
  isMinHeight (js "print") = false /\ isMaxHeight (js "print") = false.
Proof. apply (noParen_unclassified (js "print")). reflexivity. Defined.

(** * Further properties of [getQueryLength] *)

Lemma search_skip (A : Type) (f : jsstring -> option A) pre : forall s,
  (forall p1 p2, pre = p1 ++ p2 -> p2 <> [] -> f (p2 ++ s) = None) ->
  search f (pre ++ s) = search f s.
Proof.
  induction pre as [|c pre IH]; intros s H; [reflexivity|].
  pose proof (H [] (c :: pre) eq_refl ltac:(discriminate)) as H0.
  simpl in *. rewrite H0.
  apply IH. intros p1 p2 E N. apply (H (c :: p1) p2); [now rewrite E|assumption].
Qed.

Lemma lengthNum_has_digit num :
  lang lengthNum num -> exists n' d, num = n' ++ [d] /\ isDigit d = true.
Proof.
  intros L. apply lengthNum_shape in L
    as (sign & d1 & dot & c & d2 & -> & _ & _ & _ & Hc & H2).
  destruct (@exists_last _ (c :: d2) ltac:(discriminate)) as (t & d & E).
  exists (sign ++ d1 ++ dot ++ t), d. split.
  - rewrite E, <- !app_assoc. reflexivity.
  - assert (H : forallb isDigit (c :: d2) = true) by (simpl; now rewrite Hc).
    rewrite E, forallb_app in H. simpl in H.
    apply andb_prop in H as [_ H]. now apply andb_prop in H as [H _].
Qed.

Lemma lengthUnit_no_digit unit d :
  lang lengthUnit unit -> In d unit -> isDigit d = false.
Proof.
  intros L. apply lengthUnit_cases in L as [-> | [-> | [-> | [-> | ->]]]];
    simpl; intuition (subst; reflexivity).
Qed.

(** No occurrence starts inside a clean prefix. *)
Lemma clean_prefix_no_start pre s p1 p2 :
  clean_prefix pre = true -> pre = p1 ++ p2 -> p2 <> [] ->
  here2 lengthNum lengthUnit (p2 ++ s) = None.
Proof.
  unfold clean_prefix, noDigit. intros Hc -> N.
  apply andb_prop in Hc as [Hd Hz].
  destruct (here2 _ _ (p2 ++ s)) as [[m1 m2]|] eqn:H; [exfalso|reflexivity].
  apply here2_sound in H as (post & E & L1 & _).
  apply app_eq_app in E as [l [[-> E] | [-> E]]].
  - destruct (lengthNum_has_digit L1) as (n' & d & -> & Hdig).
    rewrite !forallb_app in Hd. simpl in Hd. rewrite Hdig in Hd.
    simpl in Hd. rewrite !andb_false_r in Hd. discriminate Hd.
  - destruct (@exists_last _ p2 N) as (t & z & ->).
    apply lengthNum_chars in L1. rewrite !forallb_app in L1. simpl in L1.
    rewrite app_assoc, rev_unit in Hz.
    destruct (numch z); [discriminate Hz|].
    rewrite andb_false_r in L1. discriminate L1.
Qed.

Lemma exec2_clean_prefix pre s :
  clean_prefix pre = true ->
  exec2 lengthNum lengthUnit (pre ++ s) = exec2 lengthNum lengthUnit s.
Proof.
  intros Hc. unfold exec2. apply search_skip.
  intros p1 p2 E N. eapply clean_prefix_no_start; eauto.
Qed.

Lemma getQueryLength_prefix pre s :
  clean_prefix pre = true -> getQueryLength (pre ++ s) = getQueryLength s.
Proof.
  intros Hc. unfold getQueryLength. now rewrite exec2_clean_prefix.
Qed.

(** X4.  Text in front of the first length is ignored when it holds no
    digit and does not end in [-] or [.]: the media type and the feature
    name do not change the extracted length. *)
Theorem getQueryLength_clean_prefix pre s :
  clean_prefix pre = true -> getQueryLength (pre ++ s) = getQueryLength s.
Proof.
  intros Hc. unfold getQueryLength. now rewrite exec2_clean_prefix.
Qed.

Lemma getQueryLength_clean_prefix_witness :
  getQueryLength (js "screen and (min-width: " ++ js "320px)")
  = getQueryLength (js "320px)").
Proof.
  apply (@getQueryLength_clean_prefix (js "screen and (min-width: ") (js "320px)")).
  reflexivity.
Defined.

(** The first occurrence of a string stays the first one when text is
    appended. *)
Lemma first_length_at_app s pre num unit post x :
  first_length_at s pre num unit post ->
  first_length_at (s ++ x) pre num unit (post ++ x).
Proof.
  intros [(E & Ln & Lu) Hfirst]. split.
  - split; [|auto]. rewrite E, <- !app_assoc. reflexivity.
  - intros pre' num' unit' post' (E' & Ln' & Lu').
    destruct (Nat.le_gt_cases (List.length pre) (List.length pre')) as [|Hlt];
      [assumption|exfalso].
    assert (Hfit : forall post0, s = pre' ++ num' ++ unit' ++ post0 -> False).
    { intros post0 E0.
      assert (Hle : (List.length pre <= List.length pre')%nat)
        by (apply (Hfirst pre' num' unit' post0); repeat split; auto).
      lia. }
    rewrite E, <- !app_assoc in E'.
    apply app_eq_app in E' as [l [[-> E1] | [-> E1]]];
      [|rewrite length_app in Hlt; lia].
    assert (E1' : (l ++ num) ++ (unit ++ post ++ x) = num' ++ (unit' ++ post'))
      by (rewrite <- app_assoc; symmetry; exact E1).
    clear E1.
    assert (Hsame : forall a b, unit' ++ a = unit ++ b -> unit = unit').
    { clear - Lu Lu'. intros a b E3.
      apply lengthUnit_cases in Lu as [-> | [-> | [-> | [-> | ->]]]];
        apply lengthUnit_cases in Lu' as [-> | [-> | [-> | [-> | ->]]]];
        simpl in E3; congruence. }
    apply app_eq_app in E1' as [k [[E2 E3] | [E2 E3]]].
    + (* the number of the earlier occurrence ends inside [l ++ num] *)
      destruct k as [|a k].
      * rewrite app_nil_r in E2. simpl in E3.
        apply Hsame in E3. subst unit'. apply (Hfit post).
        rewrite E, <- app_assoc, (app_assoc l num), E2. reflexivity.
      * destruct (lengthNum_has_digit Ln) as (n' & d & -> & Hdig).
        destruct (@exists_last _ (a :: k) ltac:(discriminate)) as (t & z & Ek).
        rewrite Ek in E2, E3.
        rewrite !app_assoc in E2. apply app_inj_tail in E2 as [E2 ->].
        apply app_eq_app in E3 as [r [[E4 E5] | [E4 E5]]].
        -- (* the digit [z] lies inside the earlier unit *)
           assert (Hin : In z unit') by (rewrite E4, !in_app_iff; simpl; auto).
           rewrite (@lengthUnit_no_digit unit' z Lu' Hin) in Hdig. discriminate Hdig.
        -- (* the earlier unit ends with [z] at the latest: the occurrence
              lies in [s] *)
           apply (Hfit (r ++ unit ++ post)).
           rewrite E, <- !app_assoc.
           rewrite (app_assoc l n'), E2, <- !app_assoc.
           change ([z] ++ unit ++ post) with (([z] ++ []) ++ unit ++ post).
           rewrite (app_assoc t), (app_assoc (t ++ [z] ++ [])).
           rewrite app_nil_r, E4, <- !app_assoc. reflexivity.
    + (* the number of the earlier occurrence runs past [l ++ num] *)
      destruct k as [|a k].
      * rewrite app_nil_r in E2. simpl in E3. symmetry in E3.
        apply Hsame in E3. subst unit'. apply (Hfit post).
        rewrite E, <- app_assoc, (app_assoc l num), <- E2. reflexivity.
      * destruct (lengthUnit_head Lu) as (c & r & -> & Hc).
        simpl in E3. injection E3 as -> _.
        apply lengthNum_chars in Ln'. rewrite E2, !forallb_app in Ln'.
        simpl in Ln'. rewrite Hc, !andb_false_r in Ln'. discriminate Ln'.
Qed.

(** X5.  Only the first length of a query is used: once a string holds a
    number immediately followed by a unit, text appended to it does not
    change the extracted length (a range query is measured by its first
    value). *)
Theorem getQueryLength_append s x :
  (exists pre num unit post, length_at s pre num unit post) ->
  getQueryLength (s ++ x) = getQueryLength s.
Proof.
  intros (pre & num & unit & post & Hat).
  destruct (exec2 lengthNum lengthUnit s) as [[m1 m2]|] eqn:Hs.
  - pose proof Hs as H0.
    apply exec2_Some_first in H0 as (pre0 & post0 & H0).
    apply (first_length_at_app x) in H0. apply exec2_first in H0.
    unfold getQueryLength. now rewrite Hs, H0.
  - rewrite exec2_None_iff in Hs. now elim (Hs _ _ _ _ Hat).
Qed.

Lemma getQueryLength_append_witness :
  getQueryLength (js "(min-width: 320px" ++ js ") and (max-width: 767px)")
  = getQueryLength (js "(min-width: 320px").
Proof.
  apply (@getQueryLength_append (js "(min-width: 320px")
           (js ") and (max-width: 767px)")).
  exists (js "(min-width: "), (js "320"), (js "px"), [].
  split; [reflexivity|]. split; apply matchesb_iff; reflexivity.
Defined.

Lemma getQueryLength_head n u post :
  lang lengthNum n -> lang lengthUnit u ->
  getQueryLength (n ++ u ++ post) = in_pixels u (parseFloat n).
Proof.
  intros Ln Lu.
  assert (H : first_length_at (n ++ u ++ post) [] n u post).
  { split; [repeat split; auto|]. intros. simpl. lia. }
  apply exec2_first in H.
  now apply getQueryLength_exec in H as (_ & _ & ->).
Qed.

(** X6.  [em] and [rem] are converted alike: two queries whose first
    length is the same number, written with [em] in one and with [rem] in
    the other, have the same length, 16 times the number. *)
Theorem em_rem_alike pre n post post' :
  clean_prefix pre = true -> lang lengthNum n ->
  getQueryLength (pre ++ n ++ js "em" ++ post) = mul (parseFloat n) (dyadic 16 0) /\
  getQueryLength (pre ++ n ++ js "rem" ++ post') = mul (parseFloat n) (dyadic 16 0).
Proof.
  intros Hc Ln.
  split; rewrite getQueryLength_prefix by assumption;
    rewrite getQueryLength_head;
    auto; apply matchesb_iff; reflexivity.
Qed.

Lemma em_rem_alike_witness :
  getQueryLength (js "(min-width: " ++ js "2.5" ++ js "em" ++ js ")")
  = mul (parseFloat (js "2.5")) (dyadic 16 0) /\
  getQueryLength (js "(min-width: " ++ js "2.5" ++ js "rem" ++ js ") and (color)")
  = mul (parseFloat (js "2.5")) (dyadic 16 0).
Proof.
  apply (@em_rem_alike (js "(min-width: ") (js "2.5") (js ")") (js ") and (color)")).
  - reflexivity.
  - apply matchesb_iff. reflexivity.
Defined.

Lemma noDigit_no_length q :
  noDigit q = true -> exec2 lengthNum lengthUnit q = None.
Proof.
  intros Hq. apply exec2_None_iff. intros pre num unit post (E & Ln & _).
  destruct (lengthNum_has_digit Ln) as (n' & d & -> & Hd).
  unfold noDigit in Hq. rewrite E, !forallb_app in Hq. simpl in Hq.
  rewrite Hd in Hq. simpl in Hq. rewrite !andb_false_r in Hq. discriminate Hq.
Qed.

(** * Further properties of numbers *)

Ltac cmp_cases :=
  repeat match goal with
    | H : context [Z.compare ?a ?b] |- _ => destruct (Z.compare_spec a b)
    | |- context [Z.compare ?a ?b] => destruct (Z.compare_spec a b)
    | H : context [Pos.compare_cont Eq ?a ?b] |- _ =>
        change (Pos.compare_cont Eq a b) with (Pos.compare a b) in *;
        destruct (Pos.compare_spec a b)
    | |- context [Pos.compare_cont Eq ?a ?b] =>
        change (Pos.compare_cont Eq a b) with (Pos.compare a b) in *;
        destruct (Pos.compare_spec a b)
    end; simpl in *; subst; try congruence; try lia.

Lemma SFcompare_trans x y z c :
  SFcompare x y = Some c -> SFcompare y z = Some c -> SFcompare x z = Some c.
Proof.
  destruct x as [sx|sx| |sx mx ex], y as [sy|sy| |sy my ey],
    z as [sz|sz| |sz mz ez]; simpl; try congruence;
    try (destruct sx; congruence); try (destruct sy; congruence);
    try (destruct sz; congruence);
    try (destruct sx, sy; congruence); try (destruct sy, sz; congruence);
    try (destruct sx, sz; congruence);
    try (destruct sx, sy, sz; congruence).
  destruct sx, sy, sz; simpl; try congruence; intros H1 H2; cmp_cases.
Qed.

Lemma SFcompare_eq_left x y z :
  SFcompare x y = Some Eq -> SFcompare x z = SFcompare y z.
Proof.
  destruct x as [sx|sx| |sx mx ex], y as [sy|sy| |sy my ey],
    z as [sz|sz| |sz mz ez]; simpl; try congruence;
    try (destruct sx; congruence); try (destruct sy; congruence);
    try (destruct sz; congruence);
    try (destruct sx, sy; congruence); try (destruct sy, sz; congruence);
    try (destruct sx, sz; congruence);
    try (destruct sx, sy, sz; congruence).
  destruct sx, sy, sz; simpl; try congruence; intros H1; cmp_cases.
Qed.

Lemma SFcompare_eq_right x y z :
  SFcompare y z = Some Eq -> SFcompare x y = SFcompare x z.
Proof.
  intros H. rewrite (SFcompare_antisym y x), (SFcompare_antisym z x).
  now rewrite (@SFcompare_eq_left y z x H).
Qed.

Lemma SFcompare_chained x y z c1 c2 c3 :
  SFcompare x y = Some c1 -> SFcompare y z = Some c2 ->
  SFcompare x z = Some c3 -> chained c1 c2 c3.
Proof.
  intros H1 H2 H3. unfold chained.
  destruct c1, c2;
    try (rewrite (@SFcompare_eq_left x y z H1) in H3; congruence);
    try (rewrite <- (@SFcompare_eq_right x y z H2) in H3; congruence);
    try (rewrite (@SFcompare_trans x y z _ H1 H2) in H3; congruence);
    exact I.
Qed.

Lemma lt_of_cmp x y c :
  SFcompare x y = Some c -> lt x y = match c with Lt => true | _ => false end.
Proof. unfold lt, SFltb. now intros ->. Qed.

Lemma gt_of_cmp x y c :
  SFcompare x y = Some c -> gt x y = match c with Gt => true | _ => false end.
Proof.
  unfold gt, SFltb. rewrite (SFcompare_antisym x y). intros ->.
  destruct c; reflexivity.
Qed.

Lemma strict_eq_of_cmp x y c :
  SFcompare x y = Some c ->
  strict_eq x y = match c with Eq => true | _ => false end.
Proof. unfold strict_eq, SFeqb. now intros ->. Qed.

Lemma length_cmp a b :
  exists c, SFcompare (getQueryLength a) (getQueryLength b) = Some c.
Proof.
  pose proof (getQueryLength_not_nan a) as Ha.
  pose proof (getQueryLength_not_nan b) as Hb.
  destruct (getQueryLength a), (getQueryLength b); simpl; eauto;
    unfold NaN in *; congruence.
Qed.

(** X7.  [getQueryLength] never answers [NaN]: any two extracted lengths
    are comparable, exactly one of [<], [===] and [>] holding between
    them. *)
Theorem lengths_comparable a b :
  getQueryLength a <> NaN /\
  ((lt (getQueryLength a) (getQueryLength b) = true /\
    strict_eq (getQueryLength a) (getQueryLength b) = false /\
    gt (getQueryLength a) (getQueryLength b) = false) \/
   (lt (getQueryLength a) (getQueryLength b) = false /\
    strict_eq (getQueryLength a) (getQueryLength b) = true /\
    gt (getQueryLength a) (getQueryLength b) = false) \/
   (lt (getQueryLength a) (getQueryLength b) = false /\
    strict_eq (getQueryLength a) (getQueryLength b) = false /\
    gt (getQueryLength a) (getQueryLength b) = true)).
Proof.
  split; [apply getQueryLength_not_nan|].
  destruct (length_cmp a b) as [c H].
  rewrite (@lt_of_cmp _ _ c H), (@gt_of_cmp _ _ c H),
    (@strict_eq_of_cmp _ _ c H).
  destruct c; auto.
Qed.

(** * Further properties of the comparators *)

Lemma plain_query q :
  noParen q = true -> noDigit q = true ->
  hasMin q = false /\ hasMax q = false /\ unmeasurable q = true.
Proof.
  intros Hp Hd.
  destruct (@no_single_no_class q
              (noParen_single [lit "min"; device_opt; lit "-width"] q Hp)
              (noParen_single [lit "max"; device_opt; lit "-width"] q Hp)
              (noParen_single [lit "min"; device_opt; lit "-height"] q Hp)
              (noParen_single [lit "max"; device_opt; lit "-height"] q Hp))
    as (H1 & H2 & H3 & H4).
  unfold hasMin, hasMax, unmeasurable, getQueryLength.
  rewrite H1, H2, H3, H4, (noDigit_no_length q Hd). auto.
Qed.

(** X8.  Two queries with no opening parenthesis and no digit, such as
    bare media types, are compared by [localeCompare] alone, and in the
    same direction under both policies. *)
Theorem plain_queries_by_locale lc a b :
  noParen a = true -> noDigit a = true ->
  noParen b = true -> noDigit b = true ->
  sortCSSmq lc a b = lc a b /\ desktopFirst lc a b = lc a b.
Proof.
  intros Pa Da Pb Db.
  destruct (plain_query a Pa Da) as (A1 & A2 & A3).
  destruct (plain_query b Pb Db) as (B1 & B2 & B3).
  rewrite sortCSSmq_unfold, desktopFirst_unfold.
  rewrite A1, A2, A3, B1, B2, B3. split; reflexivity.
Qed.

Lemma plain_queries_by_locale_witness :
  sortCSSmq codeUnitCompare (js "print") (js "tv") = codeUnitCompare (js "print") (js "tv") /\
  desktopFirst codeUnitCompare (js "print") (js "tv") = codeUnitCompare (js "print") (js "tv").
Proof.
  apply (@plain_queries_by_locale codeUnitCompare (js "print") (js "tv"));
    reflexivity.
Defined.

(** X9.  The two tie-break branches: when the priority rule does not
    decide and both lengths are the sentinel, both policies answer
    [a.localeCompare(b)]; when both lengths are measurable and equal, the
    mobile-first policy answers [a.localeCompare(b)] and the desktop-first
    policy its negation. *)
Theorem tie_breaks lc a b :
  priority a b = false ->
  (unmeasurable a = true -> unmeasurable b = true ->
   sortCSSmq lc a b = lc a b /\ desktopFirst lc a b = lc a b) /\
  (unmeasurable a = false -> unmeasurable b = false ->
   strict_eq (getQueryLength a) (getQueryLength b) = true ->
   sortCSSmq lc a b = lc a b /\ desktopFirst lc a b = - lc a b).
Proof.
  intros Hp. unfold priority in Hp. apply orb_false_elim in Hp as [H1 H2].
  rewrite sortCSSmq_unfold, desktopFirst_unfold, H1, H2.
  split.
  - intros -> ->. split; reflexivity.
  - intros -> -> He. simpl. rewrite gt_lt.
    destruct (strict_eq_not_lt _ _ He) as [-> ->]. split; reflexivity.
Qed.

Lemma tie_breaks_witness :
  (sortCSSmq codeUnitCompare (js "(min-width: 1em)") (js "(min-width: 16px)")
   = codeUnitCompare (js "(min-width: 1em)") (js "(min-width: 16px)") /\
   desktopFirst codeUnitCompare (js "(min-width: 1em)") (js "(min-width: 16px)")
   = - codeUnitCompare (js "(min-width: 1em)") (js "(min-width: 16px)")).
Proof.
  apply (proj2 (@tie_breaks codeUnitCompare (js "(min-width: 1em)")
                  (js "(min-width: 16px)") eq_refl)); reflexivity.
Defined.

(** X10.  The comparators answer 1, 0 or -1 whenever [localeCompare]
    does. *)
Theorem result_range (lc : jsstring -> jsstring -> Z) :
  (forall x y, lc x y = -1 \/ lc x y = 0 \/ lc x y = 1) ->
  forall a b,
    (sortCSSmq lc a b = -1 \/ sortCSSmq lc a b = 0 \/ sortCSSmq lc a b = 1) /\
    (desktopFirst lc a b = -1 \/ desktopFirst lc a b = 0 \/ desktopFirst lc a b = 1).
Proof.
  intros Hlc a b. rewrite sortCSSmq_unfold, desktopFirst_unfold.
  specialize (Hlc a b).
  destruct (hasMin a && hasMax b), (hasMax a && hasMin b),
    (unmeasurable a), (unmeasurable b),
    (gt (getQueryLength a) (getQueryLength b)),
    (lt (getQueryLength a) (getQueryLength b)), (hasMax a);
    simpl; split; lia.
Qed.

Lemma codeUnitCompare_range a : forall b,
  codeUnitCompare a b = -1 \/ codeUnitCompare a b = 0 \/ codeUnitCompare a b = 1.
Proof.
  induction a as [|x a IH]; intros [|y b]; simpl; auto.
  destruct (N.compare x y); auto.
Qed.

Lemma result_range_witness :
  (sortCSSmq codeUnitCompare (js "print") (js "tv") = -1 \/
   sortCSSmq codeUnitCompare (js "print") (js "tv") = 0 \/
   sortCSSmq codeUnitCompare (js "print") (js "tv") = 1) /\
  (desktopFirst codeUnitCompare (js "print") (js "tv") = -1 \/
   desktopFirst codeUnitCompare (js "print") (js "tv") = 0 \/
   desktopFirst codeUnitCompare (js "print") (js "tv") = 1).
Proof.
  apply (@result_range codeUnitCompare
           (fun x y => codeUnitCompare_range x y) (js "print") (js "tv")).
Defined.

(** X11.  Neither comparator answers 0 on its own: a result of 0 always
    comes from [localeCompare] answering 0 in a tie-break branch. *)
Theorem zero_only_from_locale lc a b :
  (sortCSSmq lc a b = 0 -> lc a b = 0 /\ tie_break_branch a b = true) /\
  (desktopFirst lc a b = 0 -> lc a b = 0 /\ tie_break_branch a b = true).
Proof.
  rewrite sortCSSmq_unfold, desktopFirst_unfold.
  unfold tie_break_branch, priority.
  destruct (hasMin a && hasMax b), (hasMax a && hasMin b),
    (unmeasurable a), (unmeasurable b),
    (gt (getQueryLength a) (getQueryLength b)),
    (lt (getQueryLength a) (getQueryLength b)), (hasMax a);
    simpl; split; intros H; try discriminate H; split; auto; lia.
Qed.

Lemma zero_only_from_locale_witness :
  codeUnitCompare (js "print") (js "print") = 0 /\
  tie_break_branch (js "print") (js "print") = true.
Proof.
  apply (proj1 (@zero_only_from_locale codeUnitCompare (js "print") (js "print"))).
  reflexivity.
Defined.

(** X12.  Outside the tie-break branches the result does not depend on
    [localeCompare]: the host's collation can only change the order of
    queries that tie on classification and length. *)
Theorem locale_only_in_tie_break lc lc' a b :
  tie_break_branch a b = false ->
  sortCSSmq lc a b = sortCSSmq lc' a b /\
  desktopFirst lc a b = desktopFirst lc' a b.
Proof.
  rewrite !sortCSSmq_unfold, !desktopFirst_unfold.
  unfold tie_break_branch, priority.
  destruct (hasMin a && hasMax b), (hasMax a && hasMin b),
    (unmeasurable a), (unmeasurable b),
    (gt (getQueryLength a) (getQueryLength b)),
    (lt (getQueryLength a) (getQueryLength b)), (hasMax a);
    simpl; intros H; try discriminate H; split; reflexivity.
Qed.

Lemma locale_only_in_tie_break_witness :
  sortCSSmq codeUnitCompare (js "screen and (min-width: 320px)")
            (js "screen and (min-width: 640px)")
  = sortCSSmq (fun _ _ => 0) (js "screen and (min-width: 320px)")
              (js "screen and (min-width: 640px)") /\
  desktopFirst codeUnitCompare (js "screen and (min-width: 320px)")
               (js "screen and (min-width: 640px)")
  = desktopFirst (fun _ _ => 0) (js "screen and (min-width: 320px)")
                 (js "screen and (min-width: 640px)").
Proof.
  apply (@locale_only_in_tie_break codeUnitCompare (fun _ _ => 0)
           (js "screen and (min-width: 320px)")
           (js "screen and (min-width: 640px)")).
  reflexivity.
Defined.

(** X13.  The desktop-first comparator is antisymmetric under the same
    conditions as the mobile-first one: for an antisymmetric
    [localeCompare], [desktopFirst a b = - desktopFirst b a] whenever the
    two strings are not both classified as minimum- and maximum-bound at
    once and, in the unequal-length branch, agree on being a maximum-bound
    query. *)
Theorem desktopFirst_antisymmetric (lc : jsstring -> jsstring -> Z) :
  (forall x y, lc y x = - lc x y) ->
  forall a b,
    hasMin a && hasMax a && (hasMin b && hasMax b) = false ->
    (priority a b = false ->
     unmeasurable a = false -> unmeasurable b = false ->
     strict_eq (getQueryLength a) (getQueryLength b) = false ->
     hasMax a = hasMax b) ->
    desktopFirst lc a b = - desktopFirst lc b a.
Proof.
  intros Hlc a b Hboth Hmax. rewrite !desktopFirst_unfold.
  unfold priority in Hmax. rewrite (Hlc a b).
  destruct (length_cmp a b) as [c H].
  assert (H' : SFcompare (getQueryLength b) (getQueryLength a) = Some (CompOpp c))
    by (rewrite (SFcompare_antisym (getQueryLength a) (getQueryLength b)), H;
        reflexivity).
  rewrite (@strict_eq_of_cmp _ _ c H) in Hmax.
  rewrite (@lt_of_cmp _ _ c H), (@gt_of_cmp _ _ c H),
    (@lt_of_cmp _ _ _ H'), (@gt_of_cmp _ _ _ H').
  destruct (hasMin a), (hasMax a), (hasMin b), (hasMax b);
    simpl in *; try discriminate; try reflexivity;
    destruct (unmeasurable a), (unmeasurable b); simpl; try lia;
    specialize (Hmax eq_refl eq_refl eq_refl);
    destruct c; simpl; try lia;
    specialize (Hmax eq_refl); discriminate.
Qed.

Lemma desktopFirst_antisymmetric_witness :
  desktopFirst codeUnitCompare (js "screen and (max-width: 1023px)")
               (js "screen and (max-width: 639px)")
  = - desktopFirst codeUnitCompare (js "screen and (max-width: 639px)")
                   (js "screen and (max-width: 1023px)").
Proof.
  apply (@desktopFirst_antisymmetric codeUnitCompare
           (fun x y => codeUnitCompare_antisym x y)
           (js "screen and (max-width: 1023px)")
           (js "screen and (max-width: 639px)")).
  - reflexivity.
  - intros _ _ _ _. reflexivity.
Defined.

Lemma codeUnitCompare_trans x : forall y z,
  codeUnitCompare x y < 0 -> codeUnitCompare y z < 0 -> codeUnitCompare x z < 0.
Proof.
  induction x as [|a x IH]; intros [|b y] [|c z]; simpl; try lia.
  destruct (a ?= b)%N eqn:E1, (b ?= c)%N eqn:E2; try lia; intros H1 H2.
  - apply N.compare_eq_iff in E1, E2. subst.
    rewrite N.compare_refl. eauto.
  - apply N.compare_eq_iff in E1. subst. now rewrite E2.
  - apply N.compare_eq_iff in E2. subst. now rewrite E1.
  - rewrite N.compare_lt_iff in E1, E2.
    assert (E3 : (a ?= c)%N = Lt) by (apply N.compare_lt_iff; lia).
    now rewrite E3.
Qed.

Ltac order_cases a b c :=
  destruct (length_cmp a b) as [c1 H1], (length_cmp b c) as [c2 H2],
    (length_cmp a c) as [c3 H3];
  pose proof (SFcompare_chained _ _ _ H1 H2 H3) as Hch;
  rewrite (@lt_of_cmp _ _ c1 H1), (@gt_of_cmp _ _ c1 H1),
    (@lt_of_cmp _ _ c2 H2), (@gt_of_cmp _ _ c2 H2),
    (@lt_of_cmp _ _ c3 H3), (@gt_of_cmp _ _ c3 H3);
  clear H1 H2 H3.

(** X14.  On documented queries (a minimum bound with a length, a maximum
    bound with a length, or no bound and no length) the mobile-first
    comparator is transitive whenever [localeCompare] is: if [a] sorts
    before [b] and [b] before [c], then [a] sorts before [c]. *)
Theorem sortCSSmq_transitive (lc : jsstring -> jsstring -> Z) :
  (forall x y z, lc x y < 0 -> lc y z < 0 -> lc x z < 0) ->
  forall a b c,
    documented a = true -> documented b = true -> documented c = true ->
    sortCSSmq lc a b < 0 -> sortCSSmq lc b c < 0 -> sortCSSmq lc a c < 0.
Proof.
  intros Hlc a b c Da Db Dc. rewrite !sortCSSmq_unfold.
  unfold documented, min_group, max_group, plain_group in *.
  specialize (Hlc a b c).
  order_cases a b c.
  destruct (hasMin a), (hasMax a), (unmeasurable a); try discriminate Da;
    destruct (hasMin b), (hasMax b), (unmeasurable b); try discriminate Db;
    destruct (hasMin c), (hasMax c), (unmeasurable c); try discriminate Dc;
    simpl; try lia;
    destruct c1, c2; simpl in *; try lia; subst; simpl; try lia;
    destruct c3; simpl; lia.
Qed.

Lemma sortCSSmq_transitive_witness :
  sortCSSmq codeUnitCompare (js "screen and (min-width: 320px)")
            (js "screen and (max-width: 767px)") < 0.
Proof.
  apply (@sortCSSmq_transitive codeUnitCompare
           (fun x y z => @codeUnitCompare_trans x y z)
           (js "screen and (min-width: 320px)")
           (js "screen and (min-width: 640px)")
           (js "screen and (max-width: 767px)")); reflexivity.
Defined.

(** X15.  On documented queries the desktop-first comparator is
    transitive whenever [localeCompare] is antisymmetric and transitive. *)
Theorem desktopFirst_transitive (lc : jsstring -> jsstring -> Z) :
  (forall x y, lc y x = - lc x y) ->
  (forall x y z, lc x y < 0 -> lc y z < 0 -> lc x z < 0) ->
  forall a b c,
    documented a = true -> documented b = true -> documented c = true ->
    desktopFirst lc a b < 0 -> desktopFirst lc b c < 0 ->
    desktopFirst lc a c < 0.
Proof.
  intros Hanti Hlc a b c Da Db Dc. rewrite !desktopFirst_unfold.
  unfold documented, min_group, max_group, plain_group in *.
  pose proof (Hlc a b c) as Hlt. pose proof (Hlc c b a) as Hgt.
  rewrite (Hanti b c), (Hanti a b), (Hanti a c) in Hgt. clear Hlc Hanti.
  order_cases a b c.
  destruct (hasMin a), (hasMax a), (unmeasurable a); try discriminate Da;
    destruct (hasMin b), (hasMax b), (unmeasurable b); try discriminate Db;
    destruct (hasMin c), (hasMax c), (unmeasurable c); try discriminate Dc;
    simpl; try lia;
    destruct c1, c2; simpl in *; try lia; subst; simpl; try lia;
    destruct c3; simpl; lia.
Qed.

Lemma desktopFirst_transitive_witness :
  desktopFirst codeUnitCompare (js "screen and (max-width: 1023px)")
               (js "screen and (min-width: 320px)") < 0.
Proof.
  apply (@desktopFirst_transitive codeUnitCompare
           (fun x y => codeUnitCompare_antisym x y)
           (fun x y z => @codeUnitCompare_trans x y z)
           (js "screen and (max-width: 1023px)")
           (js "screen and (max-width: 639px)")
           (js "screen and (min-width: 320px)")); reflexivity.
Defined.

(** * The sign of a length *)

Lemma binary_round_aux_opp m e l :
  binary_round_aux prec emax true m e l
  = SFopp (binary_round_aux prec emax false m e l).
Proof.
  unfold binary_round_aux.
  destruct (shr_fexp prec emax m e l) as [mrs' e'].
  destruct (shr_fexp prec emax _ e' loc_Exact) as [mrs'' e''].
  destruct (shr_m mrs''); try reflexivity.
  destruct (e'' <=? emax - prec); reflexivity.
Qed.

Lemma of_decimal_opp m k : of_decimal true m k = SFopp (of_decimal false m k).
Proof.
  unfold of_decimal. destruct m as [|p]; [reflexivity|].
  unfold SFdiv. destruct (SFdiv_core_binary _ _ _ _ _ _) as [[mz ez] lz].
  apply binary_round_aux_opp.
Qed.

Lemma parseUnsigned_opp s : parseUnsigned true s = SFopp (parseUnsigned false s).
Proof.
  unfold parseUnsigned. destruct (span isDigit s) as [ip s2].
  destruct (ip ++ _); [reflexivity|apply of_decimal_opp].
Qed.

Lemma SFopp_involutive x : SFopp (SFopp x) = x.
Proof. destruct x as [s|s| |s m e]; simpl; rewrite ?negb_involutive; reflexivity. Qed.

Lemma mul_opp x s m e :
  mul (SFopp x) (S754_finite s m e) = SFopp (mul x (S754_finite s m e)).
Proof.
  unfold mul. destruct x as [sx|sx| |sx mx ex]; simpl; try reflexivity;
    try (destruct sx, s; reflexivity).
  destruct sx, s; simpl; rewrite ?binary_round_aux_opp;
    rewrite ?SFopp_involutive; reflexivity.
Qed.

Lemma in_pixels_opp u x :
  lang lengthUnit u -> in_pixels u (SFopp x) = SFopp (in_pixels u x).
Proof.
  intros L. apply lengthUnit_cases in L as [-> | [-> | [-> | [-> | ->]]]];
    unfold in_pixels; cbn [JsString.eqb js N_of_ascii N.eqb Pos.eqb andb orb];
    try reflexivity.
  - change (dyadic 1139 (-7)) with factor_ch. rewrite factor_ch_finite.
    apply mul_opp.
  - change (dyadic 16 0) with factor_em. rewrite factor_em_finite.
    apply mul_opp.
  - change (dyadic 531 (-6)) with factor_ex. rewrite factor_ex_finite.
    apply mul_opp.
  - change (dyadic 16 0) with factor_em. rewrite factor_em_finite.
    apply mul_opp.
Qed.

Lemma parseFloat_minus n :
  lang lengthNum n -> lang lengthNum (js "-" ++ n) ->
  parseFloat (js "-" ++ n) = SFopp (parseFloat n).
Proof.
  intros Ln Lm. simpl. rewrite parseUnsigned_opp. f_equal.
  apply lengthNum_shape in Lm
    as (sign & d1 & dot & c & d2 & E & Hs & H1 & Hd & Hc & H2).
  assert (En : n = d1 ++ dot ++ c :: d2).
  { destruct Hs as [-> | ->]; simpl in E.
    - exfalso. destruct d1 as [|a d1]; simpl in E.
      + destruct Hd as [-> | ->]; simpl in E; injection E as E _.
        * rewrite <- E in Hc. discriminate Hc.
        * discriminate E.
      + injection E as E _. simpl in H1. rewrite <- E in H1. discriminate H1.
    - now injection E. }
  assert (Hh : match n with
               | h :: _ => N.eqb h 45 = false /\ N.eqb h 43 = false
               | [] => False
               end).
  { rewrite En. destruct d1 as [|a d1]; simpl.
    - destruct Hd as [-> | ->]; simpl.
      + now apply isDigit_not_sign.
      + split; reflexivity.
    - simpl in H1. apply andb_prop in H1 as [Ha _].
      now apply isDigit_not_sign. }
  unfold parseFloat. destruct n as [|h t]; [contradiction|].
  destruct Hh as [-> ->]. reflexivity.
Qed.

(** X16.  The sign of the first number is kept: putting [-] in front of
    an unsigned number negates the extracted length, whatever the unit. *)
Theorem getQueryLength_minus n u post :
  lang lengthNum n -> lang lengthNum (js "-" ++ n) -> lang lengthUnit u ->
  getQueryLength (js "-" ++ n ++ u ++ post)
  = SFopp (getQueryLength (n ++ u ++ post)).
Proof.
  intros Ln Lm Lu.
  change (js "-" ++ n ++ u ++ post) with ((js "-" ++ n) ++ u ++ post).
  rewrite !getQueryLength_head by assumption.
  rewrite parseFloat_minus by assumption. now apply in_pixels_opp.
Qed.

Lemma getQueryLength_minus_witness :
  getQueryLength (js "-" ++ js "1.5" ++ js "em" ++ js ")")
  = SFopp (getQueryLength (js "1.5" ++ js "em" ++ js ")")).
Proof.
  apply (@getQueryLength_minus (js "1.5") (js "em") (js ")"));
    apply matchesb_iff; reflexivity.
Defined.
